(** * The task state engine of the todo application (src/app/page.tsx)

    A shallow embedding of the handlers of [Home] that maintain the task
    collection and the undo log, together with the two derived views.

    page.tsx holds two revisions of the component.  [Module Synced] embeds
    the persisted revision (collection kept in the InstantDB store, lines
    439-960), which is the one that carries [createdAt]/[updatedAt];
    [Module Local] embeds the revision that keeps the collection in React
    state (lines 1-438).  The third revision (src/unnamed/part_000) has no
    undo log; its handlers are those of [Local] without the pushes.
    [Module Plain] embeds them, [Module TaskItem] one item of the active
    list with its delete gestures and its edit field, and [Module Home] the
    persisted component together with its two input cells and its keyboard
    handlers.

    Conventions.
    - JavaScript numbers that the handlers use (list lengths, indices,
      [Date.now()]) are integers far below 2^53 and are modelled by [Z].
    - [Date.now()] and InstantDB's [id()] read the environment; the handler
      that calls them takes the value read as an argument ([now], [taskId]).
      [handleReorder] reads the clock once per task; the readings of one
      event are taken to be the same instant.
    - A handler closes over the [tasks] and [undoStack] of the current render
      and schedules their replacements; it is modelled as a function from the
      state before the event to the state of the next render.  The input
      widgets' own state ([editingId], [newTaskTitle]) belongs to the
      presentation layer and is not part of [State]; the text of the new-task
      field is the argument [newTaskTitle] of [addTask]. *)

From Stdlib Require Import Strings.String Strings.Ascii.
From Stdlib Require Import DecimalString.
From Stdlib Require Import List ZArith NArith Bool Lia.
From Stdlib Require Import Sorting.Permutation Sorting.Sorted.
From Stdlib Require Import Relations.Relation_Definitions.
Import ListNotations.

Local Open Scope Z_scope.

(* ================================================================= *)
(** ** JavaScript strings and [String.prototype.trim] *)

Module JsString.

(** A string value is a sequence of UTF-16 code units. *)
Definition code_unit := N.
Definition jsstring := list code_unit.

Definition eqb (a b : jsstring) : bool :=
  if list_eq_dec N.eq_dec a b then true else false.

(** A literal whose characters are all below U+0100. *)
Definition js (s : string) : jsstring := map N_of_ascii (list_ascii_of_string s).

(** ECMAScript WhiteSpace and LineTerminator code points: what [trim] strips. *)
Definition is_white_space (c : code_unit) : bool :=
  (N.eqb c 9 || N.eqb c 10 || N.eqb c 11 || N.eqb c 12 || N.eqb c 13
   || N.eqb c 32 || N.eqb c 160 || N.eqb c 5760
   || (N.leb 8192 c && N.leb c 8202)
   || N.eqb c 8232 || N.eqb c 8233 || N.eqb c 8239 || N.eqb c 8287
   || N.eqb c 12288 || N.eqb c 65279)%N%bool.

Fixpoint trimStart (s : jsstring) : jsstring :=
  match s with
  | c :: s' => if is_white_space c then trimStart s' else s
  | [] => []
  end.

Definition trimEnd (s : jsstring) : jsstring := rev (trimStart (rev s)).

Definition trim (s : jsstring) : jsstring := trimEnd (trimStart s).

(** Truthiness of a string: every string but the empty one. *)
Definition truthy (s : jsstring) : bool :=
  match s with [] => false | _ :: _ => true end.

End JsString.

(* ================================================================= *)
(** ** Array helpers *)

Module JsArray.

Section Array.
Context {A : Type}.

(** [arr.find(p)]; [None] stands for [undefined]. *)
Definition find_first (p : A -> bool) (arr : list A) : option A := List.find p arr.

(** [arr.findIndex(p)]: the index of the first match, [-1] without one. *)
Fixpoint findIndex (p : A -> bool) (arr : list A) : Z :=
  match arr with
  | [] => -1
  | x :: arr' =>
      if p x then 0
      else let i := findIndex p arr' in if i <? 0 then -1 else i + 1
  end.

(** [arr[i]]; [None] stands for [undefined] (negative or past the end). *)
Definition at_index (arr : list A) (i : Z) : option A :=
  if i <? 0 then None else nth_error arr (Z.to_nat i).

(** [arr.slice(0, -1)]. *)
Definition slice_init (arr : list A) : list A := removelast arr.

(** [arr[arr.length - 1]]. *)
Definition last_elem (arr : list A) : option A :=
  at_index arr (Z.of_nat (length arr) - 1).

(** [arr.splice(i, 0, x)] for [0 <= i]: an index past the end appends. *)
Definition splice_in (i : Z) (x : A) (arr : list A) : list A :=
  firstn (Z.to_nat i) arr ++ x :: skipn (Z.to_nat i) arr.

(** [arr.map((x, index) => f(x, index))]. *)
Fixpoint mapi_from {B : Type} (f : A -> Z -> B) (i : Z) (arr : list A) : list B :=
  match arr with
  | [] => []
  | x :: arr' => f x i :: mapi_from f (i + 1) arr'
  end.

Definition mapi {B : Type} (f : A -> Z -> B) (arr : list A) : list B :=
  mapi_from f 0 arr.

(** [arr.sort(cmp)]: the sort is stable, and for a comparator that is a
    total preorder every stable sort returns the same array; it is written
    here as an insertion sort.  [x] goes before [y] unless [cmp x y > 0]. *)
Fixpoint insert_sorted (cmp : A -> A -> Z) (x : A) (arr : list A) : list A :=
  match arr with
  | [] => [x]
  | y :: arr' =>
      if cmp x y <=? 0 then x :: y :: arr' else y :: insert_sorted cmp x arr'
  end.

Fixpoint sort (cmp : A -> A -> Z) (arr : list A) : list A :=
  match arr with
  | [] => []
  | x :: arr' => insert_sorted cmp x (sort cmp arr')
  end.

(** Ordered by an integer key. *)
Definition key_le (key : A -> Z) (a b : A) : Prop := key a <= key b.

End Array.

(** The indices [i, i+1, ..., i+n-1] that [map] hands to its callback. *)
Fixpoint indices_from (i : Z) (n : nat) : list Z :=
  match n with
  | O => []
  | S n' => i :: indices_from (i + 1) n'
  end.

End JsArray.

(* ================================================================= *)
(** ** The persisted revision (page.tsx, lines 439-960) *)

Module Synced.

Import JsString JsArray.

(** [interface Task] (lines 447-455). *)
Record Task := mkTask {
  id : string;
  title : jsstring;
  isCompleted : bool;
  sortOrder : Z;
  createdAt : option Z;
  updatedAt : option Z;
  userId : option string
}.

(** [type Action] (lines 457-461). *)
Inductive Action :=
| ADD_TASK (task : Task)
| DELETE_TASK (task : Task) (index : Z)
| TOGGLE_COMPLETE (taskId : string) (wasCompleted : bool)
| UPDATE_TASK (taskId : string) (oldTitle newTitle : jsstring).

(** *** The store behind [db.useQuery] and [db.transact]

    InstantDB is a collaborator of the component, not part of it.  What the
    handlers rely on is modelled here: the store holds one entity per id;
    [db.tx.tasks[k].update(o)] merges the attributes of the object [o] into
    the entity [k], creating it when there is none; [db.tx.tasks[k].delete()]
    removes it; [db.transact] applies its steps in order and the query result
    [tasks] reflects them at the next render (optimistic update).  The query
    lists entities in creation order, so a created entity comes last. *)

(** The object given to [update]: the attributes it carries.  When a whole
    task is given its [id] attribute equals the key and is not repeated. *)
Record Attrs := mkAttrs {
  a_title : option jsstring;
  a_isCompleted : option bool;
  a_sortOrder : option Z;
  a_createdAt : option Z;
  a_updatedAt : option Z;
  a_userId : option string
}.

(** [{ ...task }] *)
Definition attrs_of (t : Task) : Attrs :=
  mkAttrs (Some (title t)) (Some (isCompleted t)) (Some (sortOrder t))
          (createdAt t) (updatedAt t) (userId t).

Definition or_else {A : Type} (o : option A) (d : A) : A :=
  match o with Some v => v | None => d end.

Definition or_keep {A : Type} (o old : option A) : option A :=
  match o with Some v => Some v | None => old end.

Definition merge (a : Attrs) (t : Task) : Task :=
  {| id := id t;
     title := or_else (a_title a) (title t);
     isCompleted := or_else (a_isCompleted a) (isCompleted t);
     sortOrder := or_else (a_sortOrder a) (sortOrder t);
     createdAt := or_keep (a_createdAt a) (createdAt t);
     updatedAt := or_keep (a_updatedAt a) (updatedAt t);
     userId := or_keep (a_userId a) (userId t) |}.

(** The entity an [update] creates under a key that is not in the store.
    The collection is read as [Task[]], whose [title], [isCompleted] and
    [sortOrder] are mandatory: an object without one of them gives no
    [Task], and [apply_step] below leaves the store as it is then.  The
    handlers create entities from whole tasks only: [toggleComplete] and
    [updateTaskTitle] look the task up first, and the tasks that [undo] and
    [handleReorder] address are in the store (see [undo_addresses_known]). *)
Definition entity_of (k : string) (a : Attrs) : option Task :=
  match a_title a, a_isCompleted a, a_sortOrder a with
  | Some ti, Some c, Some so =>
      Some {| id := k; title := ti; isCompleted := c; sortOrder := so;
              createdAt := a_createdAt a; updatedAt := a_updatedAt a;
              userId := a_userId a |}
  | _, _, _ => None
  end.

Definition has_id (k : string) (t : Task) : bool := String.eqb (id t) k.

Inductive TxStep :=
| tx_update (k : string) (a : Attrs)
| tx_delete (k : string).

Definition apply_step (store : list Task) (x : TxStep) : list Task :=
  match x with
  | tx_update k a =>
      if existsb (has_id k) store
      then map (fun t => if has_id k t then merge a t else t) store
      else match entity_of k a with
           | Some t => store ++ [t]
           | None => store
           end
  | tx_delete k => filter (fun t => negb (has_id k t)) store
  end.

Definition transact (steps : list TxStep) (store : list Task) : list Task :=
  fold_left apply_step steps store.

(** *** Component state: the query result and the undo stack *)

Record State := mkState {
  tasks : list Task;
  undoStack : list Action
}.

Definition initial : State := mkState [] [].

(** *** Derived views (lines 477-482) *)

(** [x || 0] on an optional number. *)
Definition or0 (x : option Z) : Z := or_else x 0.

Definition activeTasks (ts : list Task) : list Task :=
  sort (fun a b => sortOrder a - sortOrder b)
       (filter (fun t => negb (isCompleted t)) ts).

Definition completedTasks (ts : list Task) : list Task :=
  sort (fun a b => or0 (updatedAt b) - or0 (updatedAt a))
       (filter (fun t => isCompleted t) ts).

(** *** Handlers *)

(** [undo] (lines 485-521). *)
Definition undo (now : Z) (st : State) : State :=
  if (Z.of_nat (length (undoStack st)) =? 0) then st
  else
    match last_elem (undoStack st) with
    | None => st
    | Some lastAction =>
        let newUndoStack := slice_init (undoStack st) in
        let steps :=
          match lastAction with
          | ADD_TASK task => [tx_delete (id task)]
          | DELETE_TASK task _ =>
              [tx_update (id task)
                 (mkAttrs (Some (title task)) (Some (isCompleted task))
                          (Some (sortOrder task)) (createdAt task)
                          (Some now) (userId task))]
          | TOGGLE_COMPLETE taskId wasCompleted =>
              [tx_update taskId
                 (mkAttrs None (Some wasCompleted) None None (Some now) None)]
          | UPDATE_TASK taskId oldTitle _ =>
              [tx_update taskId
                 (mkAttrs (Some oldTitle) None None None (Some now) None)]
          end in
        mkState (transact steps (tasks st)) newUndoStack
    end.

(** [addTask] (lines 550-567); [newTaskTitle] is the text of the input
    field, [taskId] the value of [id()]. *)
Definition addTask (newTaskTitle : jsstring) (taskId : string) (now : Z)
    (st : State) : State :=
  if truthy (trim newTaskTitle) then
    let newTask :=
      {| id := taskId;
         title := newTaskTitle;
         isCompleted := false;
         sortOrder := Z.of_nat (length (tasks st));
         createdAt := Some now;
         updatedAt := Some now;
         userId := None |} in
    mkState (transact [tx_update taskId (attrs_of newTask)] (tasks st))
            (undoStack st ++ [ADD_TASK newTask])
  else st.

(** [toggleComplete] (lines 570-586). *)
Definition toggleComplete (taskId : string) (now : Z) (st : State) : State :=
  match find_first (has_id taskId) (tasks st) with
  | None => st
  | Some task =>
      mkState
        (transact
           [tx_update taskId
              (mkAttrs None (Some (negb (isCompleted task))) None None
                       (Some now) None)]
           (tasks st))
        (undoStack st ++ [TOGGLE_COMPLETE taskId (isCompleted task)])
  end.

(** [deleteTask] (lines 589-596). *)
Definition deleteTask (taskId : string) (st : State) : State :=
  let taskIndex := findIndex (has_id taskId) (tasks st) in
  match at_index (tasks st) taskIndex with
  | None => st
  | Some task =>
      mkState (transact [tx_delete taskId] (tasks st))
              (undoStack st ++ [DELETE_TASK task taskIndex])
  end.

(** [updateTaskTitle] (lines 599-621). *)
Definition updateTaskTitle (taskId : string) (newTitle : jsstring) (now : Z)
    (st : State) : State :=
  match find_first (has_id taskId) (tasks st) with
  | None => st
  | Some task =>
      if truthy (trim newTitle) && negb (JsString.eqb newTitle (title task))
      then
        mkState
          (transact
             [tx_update taskId
                (mkAttrs (Some newTitle) None None None (Some now) None)]
             (tasks st))
          (undoStack st ++ [UPDATE_TASK taskId (title task) newTitle])
      else if negb (truthy (trim newTitle)) then deleteTask taskId st
      else st
  end.

(** [handleReorder] (lines 641-649); [newOrder] is the array the
    [Reorder.Group] of the active list hands back. *)
Definition handleReorder (newOrder : list Task) (now : Z) (st : State) : State :=
  let updates :=
    mapi (fun task index =>
            tx_update (id task)
              (mkAttrs None None (Some index) None (Some now) None))
         newOrder in
  mkState (transact updates (tasks st)) (undoStack st).

(** The comparators and the filter of the views, by name. *)
Definition by_sortOrder (a b : Task) : Z := sortOrder a - sortOrder b.
Definition by_recency (a b : Task) : Z := or0 (updatedAt b) - or0 (updatedAt a).
Definition is_active (t : Task) : bool := negb (isCompleted t).

(** *** Runs of the component: one event after another *)

Inductive Event :=
| EvAdd (newTaskTitle : jsstring) (taskId : string) (now : Z)
| EvToggle (taskId : string) (now : Z)
| EvDelete (taskId : string)
| EvRename (taskId : string) (newTitle : jsstring) (now : Z)
| EvReorder (newOrder : list Task) (now : Z)
| EvUndo (now : Z).

Definition step (st : State) (e : Event) : State :=
  match e with
  | EvAdd ti k now => addTask ti k now st
  | EvToggle k now => toggleComplete k now st
  | EvDelete k => deleteTask k st
  | EvRename k ti now => updateTaskTitle k ti now st
  | EvReorder o now => handleReorder o now st
  | EvUndo now => undo now st
  end.

Definition run (es : list Event) (st : State) : State := fold_left step es st.

Definition reachable (st : State) : Prop := exists es, st = run es initial.

(** *** Events as the interface produces them

    [id()] returns an id that is not in use, and the [Reorder.Group] hands
    back items of the active list. *)

Definition well_formed (st : State) (e : Event) : Prop :=
  match e with
  | EvAdd _ k _ => ~ In k (map id (tasks st))
  | EvReorder o _ => forall k, In k (map id o) -> In k (map id (tasks st))
  | _ => True
  end.

Inductive wf_reachable : State -> Prop :=
| wf_initial : wf_reachable initial
| wf_step (st : State) (e : Event) :
    wf_reachable st -> well_formed st e -> wf_reachable (step st e).

(** The undo log, newest entry first, can be replayed on a store with the
    ids [known]: each entry that patches a task finds it. *)
Fixpoint log_ok (known : list string) (rlog : list Action) : Prop :=
  match rlog with
  | [] => True
  | ADD_TASK task :: r =>
      In (id task) known /\ log_ok (remove string_dec (id task) known) r
  | DELETE_TASK task _ :: r => log_ok (id task :: known) r
  | TOGGLE_COMPLETE k _ :: r => In k known /\ log_ok known r
  | UPDATE_TASK k _ _ :: r => In k known /\ log_ok known r
  end.

Definition replayable (st : State) : Prop :=
  log_ok (map id (tasks st)) (rev (undoStack st)).

(** *** Titles that are not blank *)

Definition not_blank (ti : jsstring) : Prop := trim ti <> [].

Definition action_titles_ok (a : Action) : Prop :=
  match a with
  | ADD_TASK task => not_blank (title task)
  | DELETE_TASK task _ => not_blank (title task)
  | TOGGLE_COMPLETE _ _ => True
  | UPDATE_TASK _ oldTitle _ => not_blank oldTitle
  end.

(** No title in the collection or kept in the undo log is blank. *)
Definition titles_ok (st : State) : Prop :=
  Forall (fun t => not_blank (title t)) (tasks st) /\
  Forall action_titles_ok (undoStack st).

(** *** Sample runs *)

Definition one_task : State := run [EvAdd (js "A") "a"%string 1] initial.

Definition two_tasks : State :=
  run [EvAdd (js "A") "a"%string 1; EvAdd (js "B") "b"%string 2] initial.

Definition one_done : State :=
  run [EvAdd (js "A") "a"%string 1; EvToggle "a"%string 2] initial.

Definition two_done : State :=
  run [EvAdd (js "A") "a"%string 1; EvAdd (js "B") "b"%string 2;
       EvToggle "a"%string 3; EvToggle "b"%string 4] initial.

(** *** Vocabulary of the statements *)

Definition ids (ts : list Task) : list string := map id ts.

(** The task [t] with its [updatedAt] stamped [now], nothing else touched. *)
Definition touch (now : Z) (t : Task) : Task :=
  {| id := id t; title := title t; isCompleted := isCompleted t;
     sortOrder := sortOrder t; createdAt := createdAt t;
     updatedAt := Some now; userId := userId t |}.

(** The task [addTask] builds (lines 554-561). *)
Definition newTask (newTaskTitle : jsstring) (taskId : string) (now : Z)
    (st : State) : Task :=
  {| id := taskId; title := newTaskTitle; isCompleted := false;
     sortOrder := Z.of_nat (length (tasks st));
     createdAt := Some now; updatedAt := Some now; userId := None |}.

(** The flag and the stamp [toggleComplete] writes. *)
Definition set_completed (c : bool) (now : Z) (t : Task) : Task :=
  {| id := id t; title := title t; isCompleted := c;
     sortOrder := sortOrder t; createdAt := createdAt t;
     updatedAt := Some now; userId := userId t |}.

(** The title and the stamp [updateTaskTitle] writes. *)
Definition set_title (ti : jsstring) (now : Z) (t : Task) : Task :=
  {| id := id t; title := ti; isCompleted := isCompleted t;
     sortOrder := sortOrder t; createdAt := createdAt t;
     updatedAt := Some now; userId := userId t |}.

(** Apply [f] to the entity [k], leave the others. *)
Definition at_id (k : string) (f : Task -> Task) (ts : list Task) : list Task :=
  map (fun t => if has_id k t then f t else t) ts.

(** The [sortOrder] and the stamp one step of [handleReorder] writes. *)
Definition set_sortOrder (index : Z) (now : Z) (t : Task) : Task :=
  {| id := id t; title := title t; isCompleted := isCompleted t;
     sortOrder := index; createdAt := createdAt t;
     updatedAt := Some now; userId := userId t |}.

(** What the transaction of [handleReorder] for the ids [ks], numbered from
    [index], makes of one entity. *)
Fixpoint renumber (ks : list string) (index : Z) (now : Z) (t : Task) : Task :=
  match ks with
  | [] => t
  | k :: ks' =>
      renumber ks' (index + 1) now
               (if has_id k t then set_sortOrder index now t else t)
  end.

(** [0, 1, ..., n-1] *)
Definition upto (n : nat) : list Z := indices_from 0 n.

(** The [sortOrder] values of a view are [0..n-1] in list order. *)
Definition contiguous (view : list Task) : Prop :=
  map sortOrder view = upto (length view).

End Synced.

(* ================================================================= *)
(** ** The revision with the collection in React state (page.tsx, lines 1-438) *)

Module Local.

Import JsString JsArray.

(** [interface Task] (lines 6-11). *)
Record Task := mkTask {
  id : string;
  title : jsstring;
  isCompleted : bool;
  sortOrder : Z
}.

(** [type Action] (lines 13-17). *)
Inductive Action :=
| ADD_TASK (task : Task)
| DELETE_TASK (task : Task) (index : Z)
| TOGGLE_COMPLETE (taskId : string) (wasCompleted : bool)
| UPDATE_TASK (taskId : string) (oldTitle newTitle : jsstring).

Record State := mkState {
  tasks : list Task;
  undoStack : list Action
}.

Definition initial : State := mkState [] [].

Definition has_id (k : string) (t : Task) : bool := String.eqb (id t) k.

(** Lines 27-28. *)
Definition activeTasks (ts : list Task) : list Task :=
  filter (fun t => negb (isCompleted t)) ts.

Definition completedTasks (ts : list Task) : list Task :=
  filter (fun t => isCompleted t) ts.

(** [undo] (lines 31-58). *)
Definition undo (st : State) : State :=
  if (Z.of_nat (length (undoStack st)) =? 0) then st
  else
    match last_elem (undoStack st) with
    | None => st
    | Some lastAction =>
        let newUndoStack := slice_init (undoStack st) in
        match lastAction with
        | ADD_TASK task =>
            mkState (filter (fun t => negb (has_id (id task) t)) (tasks st))
                    newUndoStack
        | DELETE_TASK task index =>
            mkState (splice_in index task (tasks st)) newUndoStack
        | TOGGLE_COMPLETE taskId wasCompleted =>
            mkState
              (map (fun t =>
                      if has_id taskId t
                      then mkTask (id t) (title t) wasCompleted (sortOrder t)
                      else t)
                   (tasks st))
              newUndoStack
        | UPDATE_TASK taskId oldTitle _ =>
            mkState
              (map (fun t =>
                      if has_id taskId t
                      then mkTask (id t) oldTitle (isCompleted t) (sortOrder t)
                      else t)
                   (tasks st))
              newUndoStack
        end
    end.

(** [Date.now().toString()]: the decimal numeral of the clock reading. *)
Definition toString (n : Z) : string :=
  DecimalString.NilZero.string_of_int (Z.to_int n).

(** [addTask] (lines 74-86). *)
Definition addTask (newTaskTitle : jsstring) (now : Z) (st : State) : State :=
  if truthy (trim newTaskTitle) then
    let newTask :=
      {| id := toString now;
         title := newTaskTitle;
         isCompleted := false;
         sortOrder := Z.of_nat (length (tasks st)) |} in
    mkState (tasks st ++ [newTask]) (undoStack st ++ [ADD_TASK newTask])
  else st.

(** [toggleComplete] (lines 89-101). *)
Definition toggleComplete (k : string) (st : State) : State :=
  match find_first (has_id k) (tasks st) with
  | None => st
  | Some task =>
      mkState
        (map (fun t =>
                if has_id k t
                then mkTask (id t) (title t) (negb (isCompleted t)) (sortOrder t)
                else t)
             (tasks st))
        (undoStack st ++ [TOGGLE_COMPLETE k (isCompleted task)])
  end.

(** [deleteTask] (lines 104-111). *)
Definition deleteTask (k : string) (st : State) : State :=
  let taskIndex := findIndex (has_id k) (tasks st) in
  match at_index (tasks st) taskIndex with
  | None => st
  | Some task =>
      mkState (filter (fun t => negb (has_id k t)) (tasks st))
              (undoStack st ++ [DELETE_TASK task taskIndex])
  end.

(** [updateTaskTitle] (lines 114-132). *)
Definition updateTaskTitle (k : string) (newTitle : jsstring) (st : State)
    : State :=
  match find_first (has_id k) (tasks st) with
  | None => st
  | Some task =>
      if truthy (trim newTitle) && negb (JsString.eqb newTitle (title task))
      then
        mkState
          (map (fun t =>
                  if has_id k t
                  then mkTask (id t) newTitle (isCompleted t) (sortOrder t)
                  else t)
               (tasks st))
          (undoStack st ++ [UPDATE_TASK k (title task) newTitle])
      else if negb (truthy (trim newTitle)) then deleteTask k st
      else st
  end.

(** [handleReorder] (lines 152-158). *)
Definition handleReorder (newOrder : list Task) (st : State) : State :=
  let updatedTasks :=
    mapi (fun task index =>
            mkTask (id task) (title task) (isCompleted task) index)
         newOrder in
  mkState (updatedTasks ++ completedTasks (tasks st)) (undoStack st).

End Local.

(* ================================================================= *)
(** ** Runs of the persisted revision that end in undos *)

Module SyncedRuns.

Import JsString JsArray Synced.

(** The task with its [updatedAt] blanked: everything [undo] gives back. *)
Definition unstamped (t : Task) : Task :=
  {| id := id t; title := title t; isCompleted := isCompleted t;
     sortOrder := sortOrder t; createdAt := createdAt t;
     updatedAt := None; userId := userId t |}.

(** The object given to [update] without its [updatedAt]. *)
Definition unstamped_attrs (a : Attrs) : Attrs :=
  mkAttrs (a_title a) (a_isCompleted a) (a_sortOrder a) (a_createdAt a) None
          (a_userId a).

(** Two collections hold the same tasks up to [updatedAt] and up to the
    place of each entity in the store. *)
Definition same_content (ts ts' : list Task) : Prop :=
  Permutation (map unstamped ts) (map unstamped ts').

(** The events whose handler pushes on the undo log. *)
Definition logged (e : Event) : bool :=
  match e with
  | EvAdd _ _ _ | EvToggle _ _ | EvDelete _ | EvRename _ _ _ => true
  | EvReorder _ _ | EvUndo _ => false
  end.

(** A sequence of logged events, each add drawing an id that is not in
    use when it runs. *)
Fixpoint admissible (st : State) (es : list Event) : Prop :=
  match es with
  | [] => True
  | e :: es' =>
      logged e = true /\ well_formed st e /\ admissible (step st e) es'
  end.

(** Cmd+Z pressed at each of the instants [nows]. *)
Definition undos (nows : list Z) : list Event := map EvUndo nows.

(** A sample state: one completed task and one active task. *)
Definition one_done_one_active : State :=
  run [EvAdd (js "A") "a"%string 1; EvToggle "a"%string 2;
       EvAdd (js "B") "b"%string 3] initial.

End SyncedRuns.

(* ================================================================= *)
(** ** Runs of the revision with the collection in React state *)

Module LocalRuns.

Import JsString JsArray Local.

Inductive Event :=
| EvAdd (newTaskTitle : jsstring) (now : Z)
| EvToggle (taskId : string)
| EvDelete (taskId : string)
| EvRename (taskId : string) (newTitle : jsstring)
| EvReorder (newOrder : list Task)
| EvUndo.

Definition step (st : State) (e : Event) : State :=
  match e with
  | EvAdd ti now => addTask ti now st
  | EvToggle k => toggleComplete k st
  | EvDelete k => deleteTask k st
  | EvRename k ti => updateTaskTitle k ti st
  | EvReorder o => handleReorder o st
  | EvUndo => undo st
  end.

Definition run (es : list Event) (st : State) : State := fold_left step es st.

(** An event whose handler pushes on the undo log; an add reads a clock
    value that no task of the collection was created at. *)
Definition loggable (st : State) (e : Event) : Prop :=
  match e with
  | EvAdd _ now => ~ In (toString now) (map id (tasks st))
  | EvToggle _ | EvDelete _ | EvRename _ _ => True
  | EvReorder _ | EvUndo => False
  end.

Fixpoint admissible (st : State) (es : list Event) : Prop :=
  match es with
  | [] => True
  | e :: es' => loggable st e /\ admissible (step st e) es'
  end.

(** The [sortOrder] one item of [handleReorder] gets. *)
Definition renumbered (t : Task) (index : Z) : Task :=
  mkTask (id t) (title t) (isCompleted t) index.

(** The undo key pressed [n] times. *)
Definition undo_times (n : nat) (st : State) : State := Nat.iter n undo st.

(** A sample state: two active tasks created at the clock readings 1
    and 2. *)
Definition two_local : State :=
  run [EvAdd (js "A") 1; EvAdd (js "B") 2] initial.

End LocalRuns.

(* ================================================================= *)
(** ** The revision without undo log (src/unnamed/part_000, lines 13-85)

    Its [interface Task] is the one of the React-state revision of page.tsx,
    field for field; the handlers act on the [tasks] array alone. *)

Module Plain.

Import JsString JsArray.

Definition Task : Type := Local.Task.

(** Lines 20-21. *)
Definition activeTasks (ts : list Task) : list Task :=
  filter (fun t => negb (Local.isCompleted t)) ts.

Definition completedTasks (ts : list Task) : list Task :=
  filter (fun t => Local.isCompleted t) ts.

(** [addTask] (lines 24-35). *)
Definition addTask (newTaskTitle : jsstring) (now : Z) (ts : list Task)
    : list Task :=
  if truthy (trim newTaskTitle) then
    ts ++ [Local.mkTask (Local.toString now) newTaskTitle false
                        (Z.of_nat (length ts))]
  else ts.

(** [toggleComplete] (lines 38-42). *)
Definition toggleComplete (k : string) (ts : list Task) : list Task :=
  map (fun t =>
         if Local.has_id k t
         then Local.mkTask (Local.id t) (Local.title t)
                           (negb (Local.isCompleted t)) (Local.sortOrder t)
         else t) ts.

(** [deleteTask] (lines 45-47). *)
Definition deleteTask (k : string) (ts : list Task) : list Task :=
  filter (fun t => negb (Local.has_id k t)) ts.

(** [updateTaskTitle] (lines 50-59). *)
Definition updateTaskTitle (k : string) (newTitle : jsstring)
    (ts : list Task) : list Task :=
  if truthy (trim newTitle) then
    map (fun t =>
           if Local.has_id k t
           then Local.mkTask (Local.id t) newTitle (Local.isCompleted t)
                             (Local.sortOrder t)
           else t) ts
  else deleteTask k ts.

(** [handleReorder] (lines 79-85). *)
Definition handleReorder (newOrder : list Task) (ts : list Task) : list Task :=
  mapi (fun task index =>
          Local.mkTask (Local.id task) (Local.title task)
                       (Local.isCompleted task) index)
       newOrder
  ++ completedTasks ts.

End Plain.

(* ================================================================= *)
(** ** One item of the active list ([TaskItem], page.tsx lines 777-960)

    The item keeps the text of its edit field and the state of the two
    delete gestures, and reports to [Home] through the callbacks it was
    given.  A handler is a function from the item before the event to the
    item after it and the callbacks it made, in order.  The wheel deltas and
    the drag offset are taken in whole pixels.  The timer of the swipe is
    either armed or not; its 100 ms are not modelled: [swipeTimeoutFires] is
    the callback given to [setTimeout]. *)

Module TaskItem.

Import JsString JsArray.

Record Item := mkItem {
  editValue : jsstring;
  isDraggingToDelete : bool;
  swipeOffset : Z;
  swipeAccumulator : Z;
  swipeTimeout : bool
}.

(** The props [onEdit], [onUpdate], [onToggle], [onDelete], [onKeyDown]
    (lines 783-787); [onKeyDown] gets the key and [target.value]. *)
Inductive Callback :=
| onEdit (taskId : string)
| onUpdate (taskId : string) (title : jsstring)
| onToggle (taskId : string)
| onDelete (taskId : string)
| onKeyDown (key : string) (taskId : string) (value : jsstring).

(** The item as mounted (lines 798-805). *)
Definition mount (title : jsstring) : Item := mkItem title false 0 0 false.

(** [handleWheel] (lines 819-851). *)
Definition handleWheel (deltaX deltaY : Z) (it : Item) : Item :=
  if Z.abs deltaY <? Z.abs deltaX then
    let acc := swipeAccumulator it - deltaX in
    if 0 <? acc
    then mkItem (editValue it) true (Z.min acc 300) acc true
    else mkItem (editValue it) (isDraggingToDelete it) (swipeOffset it) acc
                true
  else it.

(** The callback of [setTimeout] (lines 839-849), run when the timer is
    armed. *)
Definition swipeTimeoutFires (taskId : string) (it : Item)
    : Item * list Callback :=
  if swipeTimeout it then
    if 150 <? swipeAccumulator it
    then (mkItem (editValue it) (isDraggingToDelete it) (swipeOffset it) 0
                 false,
          [onDelete taskId])
    else (mkItem (editValue it) false 0 0 false, [])
  else (it, []).

(** The cleanup of the wheel effect (lines 855-861): it runs when [task.id]
    or [onDelete] changes and when the item unmounts. *)
Definition effectCleanup (it : Item) : Item :=
  mkItem (editValue it) (isDraggingToDelete it) (swipeOffset it)
         (swipeAccumulator it) false.

(** [onDragStart] and [onDragEnd] of the [motion.div] (lines 899-905). *)
Definition onDragStart (it : Item) : Item :=
  mkItem (editValue it) true (swipeOffset it) (swipeAccumulator it)
         (swipeTimeout it).

Definition onDragEnd (offset_x : Z) (taskId : string) (it : Item)
    : Item * list Callback :=
  (mkItem (editValue it) false (swipeOffset it) (swipeAccumulator it)
          (swipeTimeout it),
   if 150 <? offset_x then [onDelete taskId] else []).

(** [handleClick] (lines 863-869). *)
Definition handleClick (metaKey ctrlKey isEditing : bool) (taskId : string)
    (it : Item) : list Callback :=
  if metaKey || ctrlKey then [onToggle taskId]
  else if negb isEditing && negb (isDraggingToDelete it) then [onEdit taskId]
  else [].

(** The edit field (lines 914-927). *)
Definition onChange (value : jsstring) (it : Item) : Item :=
  mkItem value (isDraggingToDelete it) (swipeOffset it) (swipeAccumulator it)
         (swipeTimeout it).

Definition onBlur (taskId : string) (it : Item) : list Callback :=
  [onUpdate taskId (editValue it)].

Definition inputKeyDown (key : string) (taskId : string) (it : Item)
    : list Callback :=
  if String.eqb key "Enter" then [onUpdate taskId (editValue it)]
  else [onKeyDown key taskId (editValue it)].

(** The events of one item. *)
Inductive Event :=
| Wheel (deltaX deltaY : Z)
| TimerFires
| Cleanup
| DragStart
| DragEnd (offset_x : Z)
| Click (metaKey ctrlKey isEditing : bool)
| Change (value : jsstring)
| KeyDown (key : string)
| Blur.

Definition step (taskId : string) (it : Item) (e : Event)
    : Item * list Callback :=
  match e with
  | Wheel dx dy => (handleWheel dx dy it, [])
  | TimerFires => swipeTimeoutFires taskId it
  | Cleanup => (effectCleanup it, [])
  | DragStart => (onDragStart it, [])
  | DragEnd x => onDragEnd x taskId it
  | Click m c ed => (it, handleClick m c ed taskId it)
  | Change v => (onChange v it, [])
  | KeyDown key => (it, inputKeyDown key taskId it)
  | Blur => (it, onBlur taskId it)
  end.

(** The item after the events and every callback made on the way. *)
Fixpoint run (taskId : string) (es : list Event) (it : Item)
    : Item * list Callback :=
  match es with
  | [] => (it, [])
  | e :: es' =>
      let (it1, cb1) := step taskId it e in
      let (it2, cb2) := run taskId es' it1 in
      (it2, cb1 ++ cb2)
  end.

(** A burst of wheel events. *)
Definition wheels (ws : list (Z * Z)) : list Event :=
  map (fun w => Wheel (fst w) (snd w)) ws.

(** The rightward travel of a burst: the deltas of its horizontal events,
    inverted as [handleWheel] does. *)
Fixpoint travel (ws : list (Z * Z)) : Z :=
  match ws with
  | [] => 0
  | (dx, dy) :: ws' =>
      (if Z.abs dy <? Z.abs dx then - dx else 0) + travel ws'
  end.

Definition horizontal (w : Z * Z) : bool := Z.abs (snd w) <? Z.abs (fst w).

End TaskItem.

(* ================================================================= *)
(** ** The component [Home] of the persisted revision, input state included
    (page.tsx lines 463-773)

    [core] is the state of [Module Synced]; [editingId] and [newTaskTitle]
    are the two remaining [useState] cells. *)

Module Home.

Import JsString JsArray.

Record View := mkView {
  core : Synced.State;
  editingId : option string;
  newTaskTitle : jsstring
}.

Definition initial : View := mkView Synced.initial None [].

(** Truthiness of the optional argument [taskId?: string]. *)
Definition given (taskId : option string) : bool :=
  match taskId with
  | Some k => negb (String.eqb k "")
  | None => false
  end.

(** [addTask] with its input field (lines 550-567). *)
Definition addTask (taskId : string) (now : Z) (h : View) : View :=
  if truthy (trim (newTaskTitle h)) then
    mkView (Synced.addTask (newTaskTitle h) taskId now (core h))
           (editingId h) []
  else h.

Definition toggleComplete (taskId : string) (now : Z) (h : View) : View :=
  mkView (Synced.toggleComplete taskId now (core h)) (editingId h)
         (newTaskTitle h).

Definition deleteTask (taskId : string) (h : View) : View :=
  mkView (Synced.deleteTask taskId (core h)) (editingId h) (newTaskTitle h).

(** [updateTaskTitle] with [setEditingId(null)] (lines 599-621): the early
    return for an unknown id comes before it. *)
Definition updateTaskTitle (taskId : string) (newTitle : jsstring) (now : Z)
    (h : View) : View :=
  match find_first (Synced.has_id taskId) (Synced.tasks (core h)) with
  | None => h
  | Some _ =>
      mkView (Synced.updateTaskTitle taskId newTitle now (core h)) None
             (newTaskTitle h)
  end.

(** [handleKeyDown] (lines 624-638); [value] is [e.target.value], [newId]
    the id that [addTask] would draw. *)
Definition handleKeyDown (key : string) (taskId : option string)
    (value : jsstring) (newId : string) (now : Z) (h : View) : View :=
  if String.eqb key "Enter" then
    if given taskId
    then mkView (core h) None (newTaskTitle h)
    else addTask newId now h
  else if String.eqb key "Backspace" && given taskId then
    match taskId, value with
    | Some k, [] =>
        mkView (Synced.deleteTask k (core h)) None (newTaskTitle h)
    | _, _ => h
    end
  else h.

(** The listener on [window] (lines 524-534). *)
Definition windowKeyDown (metaKey ctrlKey : bool) (key : string) (now : Z)
    (h : View) : View :=
  if (metaKey || ctrlKey) && String.eqb key "z"
  then mkView (Synced.undo now (core h)) (editingId h) (newTaskTitle h)
  else h.

(** The props given to each [TaskItem] (lines 718-729). *)
Definition callback (c : TaskItem.Callback) (newId : string) (now : Z)
    (h : View) : View :=
  match c with
  | TaskItem.onEdit k => mkView (core h) (Some k) (newTaskTitle h)
  | TaskItem.onUpdate k ti => updateTaskTitle k ti now h
  | TaskItem.onToggle k => toggleComplete k now h
  | TaskItem.onDelete k => deleteTask k h
  | TaskItem.onKeyDown key k value =>
      handleKeyDown key (Some k) value newId now h
  end.

Definition callbacks (cs : list TaskItem.Callback) (newId : string) (now : Z)
    (h : View) : View :=
  fold_left (fun h c => callback c newId now h) cs h.

End Home.

(* ================================================================= *)
(** ** Facts about the array helpers *)

Module JsArrayFacts.

Import JsArray.

Section Indexing.
Context {A : Type}.

Lemma last_elem_push (l : list A) (a : A) : last_elem (l ++ [a]) = Some a.
Proof.
  unfold last_elem, at_index.
  rewrite length_app; simpl.
  replace (Z.of_nat (length l + 1) - 1) with (Z.of_nat (length l)) by lia.
  destruct (Z.ltb_spec (Z.of_nat (length l)) 0) as [H|_]; [lia|].
  rewrite Nat2Z.id, nth_error_app2 by lia.
  now rewrite Nat.sub_diag.
Qed.

Lemma slice_init_push (l : list A) (a : A) : slice_init (l ++ [a]) = l.
Proof. apply removelast_last. Qed.

Lemma last_elem_nil : last_elem (@nil A) = None.
Proof. reflexivity. Qed.

Lemma findIndex_lower (p : A -> bool) (l : list A) : -1 <= findIndex p l.
Proof.
  induction l as [|x l IH]; simpl; [lia|].
  destruct (p x); [lia|].
  destruct (Z.ltb_spec (findIndex p l) 0); lia.
Qed.

Lemma find_first_index (p : A -> bool) (l : list A) (t : A) :
  find_first p l = Some t -> at_index l (findIndex p l) = Some t.
Proof.
  unfold find_first, at_index.
  induction l as [|x l IH]; simpl; [discriminate|].
  destruct (p x) eqn:Hp.
  - now intros [= ->].
  - intros H. specialize (IH H).
    destruct (Z.ltb_spec (findIndex p l) 0) as [Hneg|Hpos]; [discriminate|].
    destruct (Z.ltb_spec (findIndex p l + 1) 0) as [?|_]; [lia|].
    replace (Z.to_nat (findIndex p l + 1)) with (S (Z.to_nat (findIndex p l)))
      by lia.
    exact IH.
Qed.

Lemma find_first_none_index (p : A -> bool) (l : list A) :
  find_first p l = None -> at_index l (findIndex p l) = None.
Proof.
  unfold find_first, at_index.
  induction l as [|x l IH]; simpl; [reflexivity|].
  destruct (p x) eqn:Hp; [discriminate|].
  intros H. specialize (IH H).
  destruct (Z.ltb_spec (findIndex p l) 0) as [Hneg|Hpos]; [reflexivity|].
  destruct (Z.ltb_spec (findIndex p l + 1) 0) as [?|_]; [lia|].
  replace (Z.to_nat (findIndex p l + 1)) with (S (Z.to_nat (findIndex p l)))
    by lia.
  exact IH.
Qed.

Lemma find_first_some_iff (p : A -> bool) (l : list A) :
  (exists t, find_first p l = Some t) <-> existsb p l = true.
Proof.
  unfold find_first.
  induction l as [|x l IH]; simpl.
  - split; [intros [t H]; discriminate | discriminate].
  - destruct (p x); simpl; [split; eauto|exact IH].
Qed.

Lemma find_first_In (p : A -> bool) (l : list A) (t : A) :
  find_first p l = Some t -> In t l /\ p t = true.
Proof. apply find_some. Qed.

Lemma mapi_from_length {B : Type} (f : A -> Z -> B) (i : Z) (l : list A) :
  length (mapi_from f i l) = length l.
Proof. revert i; induction l; simpl; auto. Qed.

End Indexing.

(** A comparator that orders by an integer key, as both comparators of the
    component do. *)
Section Sorting.
Context {A : Type}.
Variable cmp : A -> A -> Z.
Variable key : A -> Z.
Hypothesis cmp_key : forall a b, cmp a b <= 0 <-> key a <= key b.

Lemma insert_sorted_perm (x : A) (l : list A) :
  Permutation (insert_sorted cmp x l) (x :: l).
Proof.
  induction l as [|y l IH]; simpl; [reflexivity|].
  destruct (cmp x y <=? 0); [reflexivity|].
  rewrite IH. apply perm_swap.
Qed.

Lemma sort_perm (l : list A) : Permutation (sort cmp l) l.
Proof.
  induction l as [|x l IH]; simpl; [reflexivity|].
  rewrite insert_sorted_perm. now constructor.
Qed.

Lemma insert_sorted_sorted (x : A) (l : list A) :
  StronglySorted (key_le key) l -> StronglySorted (key_le key) (insert_sorted cmp x l).
Proof.
  induction 1 as [|y l Hs IH Hall]; simpl.
  - repeat constructor.
  - destruct (Z.leb_spec (cmp x y) 0) as [Hle|Hgt].
    + apply cmp_key in Hle.
      constructor; [constructor; assumption|].
      constructor; [exact Hle|].
      eapply Forall_impl; [|exact Hall].
      unfold key_le in *; intros; lia.
    + assert (Hyx : key y <= key x).
      { destruct (Z.le_gt_cases (key x) (key y)) as [H|H]; [|lia].
        apply cmp_key in H; lia. }
      constructor; [exact IH|].
      eapply Permutation_Forall; [symmetry; apply insert_sorted_perm|].
      constructor; assumption.
Qed.

Lemma sort_sorted (l : list A) : StronglySorted (key_le key) (sort cmp l).
Proof.
  induction l as [|x l IH]; simpl; [constructor|].
  now apply insert_sorted_sorted.
Qed.

Lemma NoDup_map_inj_in (l : list A) (a b : A) :
  NoDup (map key l) -> In a l -> In b l -> key a = key b -> a = b.
Proof.
  induction l as [|x l IH]; simpl; [tauto|].
  intros Hnd Ha Hb Hk. inversion Hnd as [|? ? Hnotin Hnd']; subst.
  destruct Ha as [->|Ha], Hb as [->|Hb]; auto.
  - exfalso; apply Hnotin. rewrite Hk. now apply in_map.
  - exfalso; apply Hnotin. rewrite <- Hk. now apply in_map.
Qed.

(** A list has one arrangement at most that is ordered by distinct keys. *)
Lemma sorted_perm_unique (l1 l2 : list A) :
  Permutation l1 l2 ->
  StronglySorted (key_le key) l1 -> StronglySorted (key_le key) l2 ->
  NoDup (map key l1) -> l1 = l2.
Proof.
  revert l2.
  induction l1 as [|a l1 IH]; intros l2 Hp Hs1 Hs2 Hnd.
  - apply Permutation_nil in Hp. now subst.
  - destruct l2 as [|b l2].
    { symmetry in Hp. apply Permutation_nil in Hp. discriminate. }
    assert (Hab : a = b).
    { apply (NoDup_map_inj_in (a :: l1)); auto.
      - now left.
      - eapply Permutation_in; [symmetry; exact Hp|now left].
      - apply StronglySorted_inv in Hs1 as [_ Ha].
        apply StronglySorted_inv in Hs2 as [_ Hb].
        rewrite Forall_forall in Ha, Hb.
        assert (Hb1 : In b (a :: l1))
          by (eapply Permutation_in; [symmetry; exact Hp|now left]).
        assert (Ha2 : In a (b :: l2))
          by (eapply Permutation_in; [exact Hp|now left]).
        assert (key a <= key b).
        { destruct Hb1 as [->|Hb1]; [lia|]. now apply Ha. }
        assert (key b <= key a).
        { destruct Ha2 as [->|Ha2]; [lia|]. now apply Hb. }
        lia. }
    subst b. f_equal.
    apply IH.
    + eapply Permutation_cons_inv; exact Hp.
    + now apply StronglySorted_inv in Hs1.
    + now apply StronglySorted_inv in Hs2.
    + now inversion Hnd.
Qed.

(** Sorting any arrangement of [s] gives [s] back when [s] is ordered by
    distinct keys. *)
Lemma sort_eq_of_sorted (l s : list A) :
  Permutation l s -> StronglySorted (key_le key) s -> NoDup (map key s) ->
  sort cmp l = s.
Proof.
  intros Hp Hs Hnd. symmetry.
  apply sorted_perm_unique; auto.
  - rewrite sort_perm. now symmetry.
  - apply sort_sorted.
Qed.

Lemma insert_sorted_filter (p : A -> bool) (x : A) (l : list A) :
  StronglySorted (key_le key) l ->
  filter p (insert_sorted cmp x l) =
  if p x then insert_sorted cmp x (filter p l) else filter p l.
Proof.
  induction 1 as [|y l Hs IH Hall]; simpl.
  - now destruct (p x).
  - destruct (Z.leb_spec (cmp x y) 0) as [Hle|Hgt]; simpl.
    + destruct (p x) eqn:Hpx; [|reflexivity].
      destruct (p y) eqn:Hpy; simpl.
      * destruct (Z.leb_spec (cmp x y) 0); [reflexivity|lia].
      * (* [x] is below every remaining element *)
        apply cmp_key in Hle.
        assert (Hall' : Forall (key_le key x) (filter p l)).
        { rewrite Forall_forall in *. intros z Hz.
          apply filter_In in Hz as [Hz _]. specialize (Hall z Hz).
          unfold key_le in *; lia. }
        destruct (filter p l) as [|z l'] eqn:Hf; simpl; [reflexivity|].
        inversion Hall' as [|? ? Hxz _]; subst.
        apply cmp_key in Hxz.
        destruct (Z.leb_spec (cmp x z) 0); [reflexivity|lia].
    + rewrite IH.
      destruct (p x) eqn:Hpx, (p y) eqn:Hpy; simpl; try reflexivity.
      destruct (Z.leb_spec (cmp x y) 0); [lia|reflexivity].
Qed.

(** Filtering commutes with the stable sort. *)
Lemma sort_filter (p : A -> bool) (l : list A) :
  filter p (sort cmp l) = sort cmp (filter p l).
Proof.
  induction l as [|x l IH]; simpl; [reflexivity|].
  rewrite insert_sorted_filter by apply sort_sorted.
  rewrite IH. now destruct (p x).
Qed.

End Sorting.

Section Lists.
Context {A : Type}.

Lemma Permutation_filter (p : A -> bool) (l l' : list A) :
  Permutation l l' -> Permutation (filter p l) (filter p l').
Proof.
  induction 1 as [|x l l' _ IH|x y l|l l' l'' _ IH1 _ IH2]; simpl.
  - constructor.
  - destruct (p x); [now constructor|assumption].
  - destruct (p x), (p y); try reflexivity. apply perm_swap.
  - now transitivity (filter p l').
Qed.

Lemma Permutation_split (p : A -> bool) (l : list A) :
  Permutation (filter (fun x => negb (p x)) l ++ filter p l) l.
Proof.
  induction l as [|x l IH]; simpl; [constructor|].
  destruct (p x); simpl.
  - symmetry. apply Permutation_cons_app. now symmetry.
  - now constructor.
Qed.

Lemma filter_comm (p q : A -> bool) (l : list A) :
  filter p (filter q l) = filter q (filter p l).
Proof.
  induction l as [|x l IH]; simpl; [reflexivity|].
  destruct (q x) eqn:Hq, (p x) eqn:Hp; simpl; rewrite ?Hq, ?Hp, IH; reflexivity.
Qed.

Lemma NoDup_map_In_inj {B : Type} (f : A -> B) (l : list A) (a b : A) :
  NoDup (map f l) -> In a l -> In b l -> f a = f b -> a = b.
Proof.
  induction l as [|x l IH]; simpl; [tauto|].
  intros Hnd Ha Hb Hk. inversion Hnd as [|? ? Hnotin Hnd']; subst.
  destruct Ha as [->|Ha], Hb as [->|Hb]; auto.
  - exfalso; apply Hnotin. rewrite Hk. now apply in_map.
  - exfalso; apply Hnotin. rewrite <- Hk. now apply in_map.
Qed.

Lemma StronglySorted_impl (R R' : A -> A -> Prop) (l : list A) :
  (forall a b, R a b -> R' a b) -> StronglySorted R l -> StronglySorted R' l.
Proof.
  intros H. induction 1 as [|x l _ IH Hall]; constructor; auto.
  eapply Forall_impl; [|exact Hall]. auto.
Qed.

Lemma StronglySorted_of_keys (key : A -> Z) (l : list A) :
  StronglySorted Z.le (map key l) -> StronglySorted (key_le key) l.
Proof.
  induction l as [|x l IH]; simpl; intros H; [constructor|].
  apply StronglySorted_inv in H as [Hs Hall].
  constructor; [now apply IH|].
  rewrite Forall_map in Hall. exact Hall.
Qed.

Lemma keys_of_StronglySorted (key : A -> Z) (l : list A) :
  StronglySorted (key_le key) l -> StronglySorted Z.le (map key l).
Proof.
  induction 1 as [|x l _ IH Hall]; simpl; constructor; auto.
  rewrite Forall_map. exact Hall.
Qed.

End Lists.

Lemma indices_from_length (i : Z) (n : nat) : length (indices_from i n) = n.
Proof. revert i; induction n; simpl; auto. Qed.

Lemma indices_from_In (i : Z) (n : nat) (x : Z) :
  In x (indices_from i n) -> i <= x < i + Z.of_nat n.
Proof.
  revert i. induction n as [|n IH]; simpl; intros i; [tauto|].
  intros [<-|H]; [lia|]. apply IH in H. lia.
Qed.

Lemma indices_from_sorted (i : Z) (n : nat) :
  StronglySorted Z.le (indices_from i n).
Proof.
  revert i. induction n as [|n IH]; simpl; intros i; constructor; auto.
  apply Forall_forall. intros x Hx. apply indices_from_In in Hx. lia.
Qed.

Lemma indices_from_NoDup (i : Z) (n : nat) : NoDup (indices_from i n).
Proof.
  revert i. induction n as [|n IH]; simpl; intros i; constructor; auto.
  intros Hx. apply indices_from_In in Hx. lia.
Qed.

Lemma indices_from_snoc (i : Z) (n : nat) :
  indices_from i (S n) = indices_from i n ++ [i + Z.of_nat n].
Proof.
  revert i. induction n as [|n IH]; intros i.
  - simpl. f_equal. lia.
  - change (indices_from i (S (S n)))
      with (i :: indices_from (i + 1) (S n)).
    rewrite IH. simpl. do 3 f_equal. lia.
Qed.

End JsArrayFacts.

(* ================================================================= *)
(** ** Properties of the persisted revision *)

Module SyncedFacts.

Import JsString JsArray JsArrayFacts Synced.

Local Open Scope string_scope.
Local Open Scope list_scope.
Local Open Scope Z_scope.

(** *** The store *)

Lemma has_id_true (k : string) (t : Task) : has_id k t = true <-> id t = k.
Proof. unfold has_id. apply String.eqb_eq. Qed.

Lemma has_id_false (k : string) (t : Task) : has_id k t = false <-> id t <> k.
Proof. unfold has_id. apply String.eqb_neq. Qed.

Lemma existsb_has_id (k : string) (ts : list Task) :
  existsb (has_id k) ts = true <-> In k (ids ts).
Proof.
  unfold ids. rewrite existsb_exists, in_map_iff.
  split; intros [t H]; exists t; rewrite has_id_true in *; tauto.
Qed.

Lemma existsb_has_id_false (k : string) (ts : list Task) :
  existsb (has_id k) ts = false <-> ~ In k (ids ts).
Proof.
  rewrite <- existsb_has_id.
  destruct (existsb (has_id k) ts); split; congruence.
Qed.

Lemma merge_id (a : Attrs) (t : Task) : id (merge a t) = id t.
Proof. reflexivity. Qed.

Lemma ids_at_id (k : string) (f : Task -> Task) (ts : list Task) :
  (forall t, id (f t) = id t) -> ids (at_id k f ts) = ids ts.
Proof.
  intros Hf. unfold ids, at_id. rewrite map_map. apply map_ext.
  intros t. destruct (has_id k t); auto.
Qed.

Lemma entity_of_id (k : string) (a : Attrs) (t : Task) :
  entity_of k a = Some t -> id t = k.
Proof.
  unfold entity_of.
  destruct (a_title a), (a_isCompleted a), (a_sortOrder a); try discriminate.
  now intros [= <-].
Qed.

Lemma filter_not_id_fresh (k : string) (ts : list Task) :
  ~ In k (ids ts) -> filter (fun t => negb (has_id k t)) ts = ts.
Proof.
  induction ts as [|t ts IH]; simpl; [reflexivity|].
  intros H. destruct (has_id k t) eqn:E; simpl.
  - apply has_id_true in E. tauto.
  - f_equal. apply IH. tauto.
Qed.

Lemma at_id_fresh (k : string) (f : Task -> Task) (ts : list Task) :
  ~ In k (ids ts) -> at_id k f ts = ts.
Proof.
  induction ts as [|t ts IH]; simpl; [reflexivity|].
  intros H. destruct (has_id k t) eqn:E.
  - apply has_id_true in E. tauto.
  - f_equal. apply IH. tauto.
Qed.

Lemma ids_filter_subset (p : Task -> bool) (ts : list Task) (k : string) :
  In k (ids (filter p ts)) -> In k (ids ts).
Proof.
  unfold ids. rewrite !in_map_iff. intros [t [H1 H2]].
  apply filter_In in H2. exists t; tauto.
Qed.

Lemma NoDup_ids_filter (p : Task -> bool) (ts : list Task) :
  NoDup (ids ts) -> NoDup (ids (filter p ts)).
Proof.
  induction ts as [|t ts IH]; simpl; [auto|].
  intros H. inversion H as [|? ? Hn Hd]; subst.
  destruct (p t); simpl; auto.
  constructor; auto. intros Hin. apply Hn. eapply ids_filter_subset; eauto.
Qed.

(** One entity per id: every step of a transaction keeps it. *)
Lemma apply_step_NoDup (store : list Task) (x : TxStep) :
  NoDup (ids store) -> NoDup (ids (apply_step store x)).
Proof.
  intros Hnd. destruct x as [k a|k]; simpl.
  - destruct (existsb (has_id k) store) eqn:E.
    + change (NoDup (ids (at_id k (merge a) store))).
      now rewrite ids_at_id by apply merge_id.
    + destruct (entity_of k a) as [t|] eqn:Ht; [|assumption].
      apply entity_of_id in Ht. apply existsb_has_id_false in E.
      unfold ids in *. rewrite map_app; simpl.
      apply NoDup_app; [assumption|repeat constructor; simpl; tauto|].
      intros x Hx [<-|[]]. subst k. contradiction.
  - now apply NoDup_ids_filter.
Qed.

Lemma transact_NoDup (steps : list TxStep) (store : list Task) :
  NoDup (ids store) -> NoDup (ids (transact steps store)).
Proof.
  unfold transact. revert store.
  induction steps as [|x steps IH]; simpl; intros store H; [assumption|].
  apply IH. now apply apply_step_NoDup.
Qed.

Lemma step_NoDup (st : State) (e : Event) :
  NoDup (ids (tasks st)) -> NoDup (ids (tasks (step st e))).
Proof.
  intros Hnd.
  destruct e as [ti k now|k now|k|k ti now|o now|now]; simpl.
  - unfold addTask. destruct (truthy (trim ti)); [|assumption].
    now apply transact_NoDup.
  - unfold toggleComplete.
    destruct (find_first (has_id k) (tasks st)); [|assumption].
    now apply transact_NoDup.
  - unfold deleteTask.
    destruct (at_index (tasks st) _); [|assumption].
    now apply transact_NoDup.
  - unfold updateTaskTitle, deleteTask.
    destruct (find_first (has_id k) (tasks st)); [|assumption].
    destruct (truthy (trim ti) && _); [now apply transact_NoDup|].
    destruct (negb _); [|assumption].
    destruct (at_index (tasks st) _); [|assumption].
    now apply transact_NoDup.
  - now apply transact_NoDup.
  - unfold undo.
    destruct (Z.of_nat (length (undoStack st)) =? 0); [assumption|].
    destruct (last_elem (undoStack st)); [|assumption].
    now apply transact_NoDup.
Qed.

Lemma run_NoDup (es : list Event) (st : State) :
  NoDup (ids (tasks st)) -> NoDup (ids (tasks (run es st))).
Proof.
  unfold run. revert st.
  induction es as [|e es IH]; simpl; intros st H; [assumption|].
  apply IH. now apply step_NoDup.
Qed.

Lemma reachable_NoDup (st : State) : reachable st -> NoDup (ids (tasks st)).
Proof. intros [es ->]. apply run_NoDup. constructor. Qed.

(** C2. Whatever sequence of adds, deletes, toggles and renames (and of
    reorders and undos) is run from the empty collection, no two tasks of
    the resulting collection, active or completed, have the same id. *)
Theorem task_ids_unique (es : list Event) :
  NoDup (map id (tasks (run es initial))).
Proof. apply (run_NoDup es initial). constructor. Qed.

(** *** What each handler does to the state *)

Lemma truthy_false (s : jsstring) : truthy s = false <-> s = [].
Proof. destruct s; simpl; split; congruence. Qed.

Lemma truthy_true (s : jsstring) : truthy s = true <-> s <> [].
Proof. destruct s; simpl; split; congruence. Qed.

Lemma jseqb_true (a b : jsstring) : JsString.eqb a b = true <-> a = b.
Proof. unfold JsString.eqb. destruct (list_eq_dec N.eq_dec a b); split; congruence. Qed.

Lemma jseqb_false (a b : jsstring) : JsString.eqb a b = false <-> a <> b.
Proof. unfold JsString.eqb. destruct (list_eq_dec N.eq_dec a b); split; congruence. Qed.

Lemma update_known (k : string) (a : Attrs) (store : list Task) :
  In k (ids store) ->
  transact [tx_update k a] store = at_id k (merge a) store.
Proof.
  intros H. apply existsb_has_id in H.
  unfold transact; simpl. now rewrite H.
Qed.

Lemma update_fresh (k : string) (a : Attrs) (t : Task) (store : list Task) :
  ~ In k (ids store) -> entity_of k a = Some t ->
  transact [tx_update k a] store = store ++ [t].
Proof.
  intros H Ht. apply existsb_has_id_false in H.
  unfold transact; simpl. now rewrite H, Ht.
Qed.

Lemma find_known (k : string) (ts : list Task) (task : Task) :
  find_first (has_id k) ts = Some task ->
  In task ts /\ id task = k /\ In k (ids ts).
Proof.
  intros H. apply find_first_In in H as [Hin Hid].
  apply has_id_true in Hid. repeat split; auto.
  unfold ids. rewrite <- Hid. now apply in_map.
Qed.

Lemma known_find (k : string) (ts : list Task) :
  In k (ids ts) -> exists task, find_first (has_id k) ts = Some task.
Proof. intros H. apply find_first_some_iff. now apply existsb_has_id. Qed.

Lemma find_unknown (k : string) (ts : list Task) :
  ~ In k (ids ts) -> find_first (has_id k) ts = None.
Proof.
  intros H. destruct (find_first (has_id k) ts) as [t|] eqn:E; [|reflexivity].
  apply find_known in E. tauto.
Qed.

Lemma addTask_fresh (ti : jsstring) (k : string) (now : Z) (st : State) :
  trim ti <> [] -> ~ In k (ids (tasks st)) ->
  addTask ti k now st =
  mkState (tasks st ++ [newTask ti k now st])
          (undoStack st ++ [ADD_TASK (newTask ti k now st)]).
Proof.
  intros Ht Hk. apply truthy_true in Ht.
  unfold addTask. rewrite Ht. f_equal.
  now apply update_fresh.
Qed.

Lemma addTask_known (ti : jsstring) (k : string) (now : Z) (st : State) :
  trim ti <> [] -> In k (ids (tasks st)) ->
  addTask ti k now st =
  mkState (at_id k (merge (attrs_of (newTask ti k now st))) (tasks st))
          (undoStack st ++ [ADD_TASK (newTask ti k now st)]).
Proof.
  intros Ht Hk. apply truthy_true in Ht.
  unfold addTask. rewrite Ht. f_equal.
  now apply update_known.
Qed.

Lemma addTask_blank (ti : jsstring) (k : string) (now : Z) (st : State) :
  trim ti = [] -> addTask ti k now st = st.
Proof. intros Ht. apply truthy_false in Ht. unfold addTask. now rewrite Ht. Qed.

Lemma toggleComplete_known (k : string) (now : Z) (st : State) (task : Task) :
  find_first (has_id k) (tasks st) = Some task ->
  toggleComplete k now st =
  mkState (at_id k (set_completed (negb (isCompleted task)) now) (tasks st))
          (undoStack st ++ [TOGGLE_COMPLETE k (isCompleted task)]).
Proof.
  intros H. unfold toggleComplete. rewrite H.
  apply find_known in H as (_ & _ & Hk).
  now rewrite update_known.
Qed.

Lemma deleteTask_known (k : string) (st : State) (task : Task) :
  find_first (has_id k) (tasks st) = Some task ->
  deleteTask k st =
  mkState (filter (fun t => negb (has_id k t)) (tasks st))
          (undoStack st ++
             [DELETE_TASK task (findIndex (has_id k) (tasks st))]).
Proof.
  intros H. unfold deleteTask.
  now rewrite (find_first_index _ _ _ H).
Qed.

Lemma deleteTask_unknown (k : string) (st : State) :
  ~ In k (ids (tasks st)) -> deleteTask k st = st.
Proof.
  intros H. unfold deleteTask.
  now rewrite (find_first_none_index _ _ (find_unknown _ _ H)).
Qed.

Lemma updateTaskTitle_changed (k : string) (ti : jsstring) (now : Z)
    (st : State) (task : Task) :
  find_first (has_id k) (tasks st) = Some task ->
  trim ti <> [] -> ti <> title task ->
  updateTaskTitle k ti now st =
  mkState (at_id k (set_title ti now) (tasks st))
          (undoStack st ++ [UPDATE_TASK k (title task) ti]).
Proof.
  intros H Ht Hne. unfold updateTaskTitle. rewrite H.
  apply truthy_true in Ht. apply jseqb_false in Hne.
  rewrite Ht, Hne; cbn [andb negb].
  apply find_known in H as (_ & _ & Hk).
  now rewrite update_known.
Qed.

Lemma updateTaskTitle_blank (k : string) (ti : jsstring) (now : Z)
    (st : State) :
  trim ti = [] -> updateTaskTitle k ti now st = deleteTask k st.
Proof.
  intros Ht. apply truthy_false in Ht.
  unfold updateTaskTitle. rewrite Ht; simpl.
  destruct (find_first (has_id k) (tasks st)) eqn:E; [reflexivity|].
  unfold deleteTask. now rewrite (find_first_none_index _ _ E).
Qed.

Lemma updateTaskTitle_same (k : string) (ti : jsstring) (now : Z)
    (st : State) (task : Task) :
  find_first (has_id k) (tasks st) = Some task ->
  trim ti <> [] -> ti = title task ->
  updateTaskTitle k ti now st = st.
Proof.
  intros H Ht He. unfold updateTaskTitle. rewrite H.
  apply truthy_true in Ht. apply jseqb_true in He.
  now rewrite Ht, He.
Qed.

Lemma mkState_eta (st : State) : mkState (tasks st) (undoStack st) = st.
Proof. now destruct st. Qed.

Lemma undo_empty (now : Z) (st : State) : undoStack st = [] -> undo now st = st.
Proof. intros H. unfold undo. now rewrite H. Qed.

Lemma undo_pushed (now : Z) (ts : list Task) (log : list Action) (a : Action) :
  undo now (mkState ts (log ++ [a])) =
  mkState
    (transact
       match a with
       | ADD_TASK task => [tx_delete (id task)]
       | DELETE_TASK task _ =>
           [tx_update (id task)
              (mkAttrs (Some (title task)) (Some (isCompleted task))
                       (Some (sortOrder task)) (createdAt task)
                       (Some now) (userId task))]
       | TOGGLE_COMPLETE taskId wasCompleted =>
           [tx_update taskId
              (mkAttrs None (Some wasCompleted) None None (Some now) None)]
       | UPDATE_TASK taskId oldTitle _ =>
           [tx_update taskId
              (mkAttrs (Some oldTitle) None None None (Some now) None)]
       end ts)
    log.
Proof.
  unfold undo; simpl.
  rewrite last_elem_push, slice_init_push, length_app; simpl.
  destruct (Z.eqb_spec (Z.of_nat (length log + 1)) 0); [lia|reflexivity].
Qed.

Lemma in_at_id (k : string) (f : Task -> Task) (ts : list Task) (t' : Task) :
  In t' (at_id k f ts) <->
  exists t, In t ts /\ t' = if has_id k t then f t else t.
Proof.
  unfold at_id. rewrite in_map_iff.
  split; intros [t [H1 H2]]; exists t; split; auto.
Qed.

Lemma at_id_changes (k : string) (f : Task -> Task) (ts : list Task) (t : Task) :
  In t ts -> id t = k -> f t <> t -> at_id k f ts <> ts.
Proof.
  intros Hin Hid Hf Heq.
  induction ts as [|x ts IH]; simpl in *; [contradiction|].
  injection Heq as Hx Hts.
  destruct Hin as [->|Hin]; [|now apply IH].
  apply has_id_true in Hid. rewrite Hid in Hx. contradiction.
Qed.

Lemma filter_shorter (k : string) (ts : list Task) :
  In k (ids ts) -> filter (fun t => negb (has_id k t)) ts <> ts.
Proof.
  intros Hin Heq.
  assert (Hk : In k (ids (filter (fun t => negb (has_id k t)) ts)))
    by now rewrite Heq.
  unfold ids in Hk. apply in_map_iff in Hk as [t [Hid Ht]].
  apply filter_In in Ht as [_ Ht].
  apply has_id_true in Hid. now rewrite Hid in Ht.
Qed.

Lemma app_one_neq {A : Type} (l : list A) (a : A) : l ++ [a] <> l.
Proof.
  intros H. apply (f_equal (@length A)) in H.
  rewrite length_app in H; simpl in H. lia.
Qed.

(** *** Titles are never blank *)

Lemma apply_step_titles (store : list Task) (x : TxStep) :
  Forall (fun t => not_blank (title t)) store ->
  match x with
  | tx_update _ a => forall ti, a_title a = Some ti -> not_blank ti
  | tx_delete _ => True
  end ->
  Forall (fun t => not_blank (title t)) (apply_step store x).
Proof.
  intros Hst Hx. destruct x as [k a|k]; simpl.
  - destruct (existsb (has_id k) store).
    + rewrite Forall_map. eapply Forall_impl; [|exact Hst].
      intros t Ht. destruct (has_id k t); [|exact Ht].
      unfold merge; simpl. destruct (a_title a) as [ti|]; simpl; auto.
    + destruct (entity_of k a) as [t|] eqn:E; [|exact Hst].
      apply Forall_app. split; [exact Hst|]. constructor; [|constructor].
      unfold entity_of in E.
      destruct (a_title a) as [ti|], (a_isCompleted a), (a_sortOrder a);
        try discriminate.
      injection E as <-. simpl. now apply Hx.
  - rewrite Forall_forall in *. intros t Ht.
    apply filter_In in Ht as [Ht _]. now apply Hst.
Qed.

Lemma transact_titles (steps : list TxStep) (store : list Task) :
  Forall (fun t => not_blank (title t)) store ->
  Forall (fun x => match x with
                   | tx_update _ a => forall ti, a_title a = Some ti -> not_blank ti
                   | tx_delete _ => True
                   end) steps ->
  Forall (fun t => not_blank (title t)) (transact steps store).
Proof.
  unfold transact. revert store.
  induction steps as [|x steps IH]; simpl; intros store Hst Hsteps; [assumption|].
  inversion Hsteps as [|? ? Hx Hrest]; subst.
  apply IH; [|assumption]. now apply apply_step_titles.
Qed.

Lemma deleteTask_titles (k : string) (st : State) :
  titles_ok st -> titles_ok (deleteTask k st).
Proof.
  intros [Ht Hl].
  destruct (find_first (has_id k) (tasks st)) as [task|] eqn:Hf.
  - rewrite (deleteTask_known _ _ _ Hf). split; cbn [tasks undoStack].
    + apply (apply_step_titles _ (tx_delete k)); auto.
    + apply Forall_app. split; [assumption|].
      constructor; [|constructor]. simpl.
      apply find_known in Hf as (Hin & _).
      rewrite Forall_forall in Ht. now apply Ht.
  - unfold deleteTask. rewrite (find_first_none_index _ _ Hf). now split.
Qed.

Lemma handleReorder_titles (newOrder : list Task) (now : Z) (st : State) :
  titles_ok st -> titles_ok (handleReorder newOrder now st).
Proof.
  intros [Ht Hl]. split; [|exact Hl]. cbn [handleReorder tasks].
  apply transact_titles; [assumption|].
  unfold mapi. generalize 0 as i.
  induction newOrder as [|x o IH]; intros i; simpl; constructor; auto.
  simpl. discriminate.
Qed.

Lemma step_titles_ok (st : State) (e : Event) :
  titles_ok st -> titles_ok (step st e).
Proof.
  intros Hok. pose proof Hok as [Ht Hl].
  destruct e as [ti k now|k now|k|k ti now|o now|now]; simpl.
  - unfold addTask. destruct (truthy (trim ti)) eqn:E; [|assumption].
    apply truthy_true in E. split; cbn [tasks undoStack].
    + apply transact_titles; [assumption|].
      constructor; [|constructor]. simpl. now intros ? [= <-].
    + apply Forall_app. split; [assumption|]. now repeat constructor.
  - unfold toggleComplete.
    destruct (find_first (has_id k) (tasks st)); [|assumption].
    split; cbn [tasks undoStack].
    + apply transact_titles; [assumption|].
      constructor; [|constructor]. simpl. discriminate.
    + apply Forall_app. split; [assumption|]. now repeat constructor.
  - now apply deleteTask_titles.
  - unfold updateTaskTitle.
    destruct (find_first (has_id k) (tasks st)) as [task|] eqn:Hf;
      [|assumption].
    destruct (truthy (trim ti)) eqn:E; cbn [andb negb].
    + destruct (negb (JsString.eqb ti (title task))); [|assumption].
      apply truthy_true in E. split; cbn [tasks undoStack].
      * apply transact_titles; [assumption|].
        constructor; [|constructor]. simpl. now intros ? [= <-].
      * apply Forall_app. split; [assumption|].
        constructor; [|constructor]. simpl.
        apply find_known in Hf as (Hin & _).
        rewrite Forall_forall in Ht. now apply Ht.
    + now apply deleteTask_titles.
  - now apply handleReorder_titles.
  - destruct (undoStack st) as [|a0 log0] eqn:E.
    { now rewrite undo_empty. }
    destruct (exists_last (l := a0 :: log0)) as (log & a & E');
      [discriminate|].
    rewrite <- (mkState_eta st), E, E', undo_pushed.
    rewrite E' in Hl. apply Forall_app in Hl as [Hlog Ha].
    inversion Ha as [|? ? Hact _]; subst.
    split; cbn [tasks undoStack]; [|assumption].
    apply transact_titles; [assumption|].
    destruct a as [task|task idx|k' was|k' old new];
      (constructor; [|constructor]); simpl in *; auto.
    + now intros ? [= <-].
    + discriminate.
    + now intros ? [= <-].
Qed.

Lemma reachable_titles_ok (st : State) : reachable st -> titles_ok st.
Proof.
  intros [es ->]. unfold run.
  assert (H0 : titles_ok initial) by (split; constructor).
  revert H0. generalize initial as s.
  induction es as [|e es IH]; simpl; intros s Hs; [assumption|].
  apply IH. now apply step_titles_ok.
Qed.

(** *** The entries of the undo log address tasks of the store *)

Lemma log_ok_equiv (r : list Action) (known known' : list string) :
  (forall k, In k known <-> In k known') -> log_ok known r -> log_ok known' r.
Proof.
  revert known known'.
  induction r as [|a r IH]; intros known known' Heq; simpl; [auto|].
  destruct a as [task|task idx|k w|k old new].
  - intros [Hin Hr]. split; [now apply Heq|].
    apply (IH (remove string_dec (id task) known)); [|exact Hr].
    intros k. split; intros H; apply in_remove in H as [H1 H2];
      apply in_in_remove; auto; now apply Heq.
  - apply IH. intros k. simpl. now rewrite Heq.
  - intros [Hin Hr]. split; [now apply Heq|]. now apply (IH known).
  - intros [Hin Hr]. split; [now apply Heq|]. now apply (IH known).
Qed.

Lemma ids_filter_other (k : string) (ts : list Task) (x : string) :
  In x (ids (filter (fun t => negb (has_id k t)) ts)) <->
  In x (ids ts) /\ x <> k.
Proof.
  unfold ids. rewrite !in_map_iff. split.
  - intros [t [<- Ht]]. apply filter_In in Ht as [Hin Hk].
    split; [now exists t|].
    intros E. apply has_id_true in E. now rewrite E in Hk.
  - intros [[t [<- Hin]] Hne]. exists t. split; [reflexivity|].
    apply filter_In. split; [assumption|].
    destruct (has_id k t) eqn:E; [|reflexivity].
    apply has_id_true in E. contradiction.
Qed.

Lemma ids_apply_update (k : string) (a : Attrs) (store : list Task) (x : string) :
  In x (ids (apply_step store (tx_update k a))) -> In x (ids store) \/ x = k.
Proof.
  simpl. destruct (existsb (has_id k) store).
  - change (In x (ids (at_id k (merge a) store)) -> In x (ids store) \/ x = k).
    rewrite ids_at_id by apply merge_id. auto.
  - destruct (entity_of k a) as [t|] eqn:E; [|auto].
    unfold ids. rewrite map_app, in_app_iff. simpl.
    apply entity_of_id in E. intros [H|[H|[]]]; auto. right. congruence.
Qed.

Lemma ids_apply_update_whole (k : string) (a : Attrs) (t : Task)
    (store : list Task) (x : string) :
  entity_of k a = Some t ->
  In x (ids (apply_step store (tx_update k a))) <-> In x (ids store) \/ x = k.
Proof.
  intros E. split; [apply ids_apply_update|].
  simpl. destruct (existsb (has_id k) store) eqn:Hk.
  - change (In x (ids store) \/ x = k -> In x (ids (at_id k (merge a) store))).
    rewrite ids_at_id by apply merge_id.
    apply existsb_has_id in Hk. intros [H| ->]; assumption.
  - rewrite E. unfold ids. rewrite map_app, in_app_iff. simpl.
    apply entity_of_id in E. intros [H| ->]; auto.
Qed.

Lemma ids_apply_update_known (k : string) (a : Attrs) (store : list Task) :
  In k (ids store) -> ids (apply_step store (tx_update k a)) = ids store.
Proof.
  intros H. apply existsb_has_id in H. simpl. rewrite H.
  apply (ids_at_id k (merge a)), merge_id.
Qed.

Lemma ids_apply_partial (k : string) (a : Attrs) (store : list Task) :
  entity_of k a = None -> ids (apply_step store (tx_update k a)) = ids store.
Proof.
  intros E. simpl. rewrite E. destruct (existsb (has_id k) store); [|reflexivity].
  apply (ids_at_id k (merge a)), merge_id.
Qed.

Lemma ids_handleReorder (o : list Task) (now : Z) (st : State) :
  ids (tasks (handleReorder o now st)) = ids (tasks st).
Proof.
  unfold handleReorder, mapi, transact. cbn [tasks].
  generalize 0 as i. generalize (tasks st) as store.
  induction o as [|x o IH]; intros store i; simpl; [reflexivity|].
  rewrite IH. now apply ids_apply_partial.
Qed.

Lemma replayable_push (ts ts' : list Task) (log : list Action) (a : Action) :
  log_ok (ids ts') (a :: rev log) -> replayable (mkState ts' (log ++ [a])).
Proof. unfold replayable; simpl. now rewrite rev_app_distr. Qed.

Lemma deleteTask_replayable (k : string) (st : State) :
  replayable st -> replayable (deleteTask k st).
Proof.
  intros Hok.
  destruct (find_first (has_id k) (tasks st)) as [task|] eqn:Hf.
  - rewrite (deleteTask_known _ _ _ Hf).
    apply (replayable_push (tasks st)). simpl.
    apply find_known in Hf as (_ & Hid & Hk).
    apply (log_ok_equiv _ (ids (tasks st))); [|exact Hok].
    intros x. simpl. rewrite ids_filter_other, Hid.
    destruct (string_dec x k) as [->|Hne]; intuition congruence.
  - unfold deleteTask. now rewrite (find_first_none_index _ _ Hf).
Qed.

Lemma step_replayable (st : State) (e : Event) :
  well_formed st e -> replayable st -> replayable (step st e).
Proof.
  intros Hwf Hok.
  destruct e as [ti k now|k now|k|k ti now|o now|now]; simpl in *.
  - destruct (trim ti) as [|c r] eqn:E; [now rewrite addTask_blank|].
    rewrite addTask_fresh by (rewrite ?E; assumption || discriminate).
    apply (replayable_push (tasks st)). simpl.
    unfold ids. rewrite map_app, in_app_iff. simpl.
    split; [auto|].
    apply (log_ok_equiv _ (ids (tasks st))); [|exact Hok].
    intros x. split.
    + intros Hx. apply in_in_remove; [intros ->; exact (Hwf Hx)|].
      apply in_or_app. now left.
    + intros Hx. apply in_remove in Hx as [Hx Hne].
      apply in_app_or in Hx as [Hx|[Hx|[]]]; [assumption|congruence].
  - destruct (find_first (has_id k) (tasks st)) as [task|] eqn:Hf.
    + rewrite (toggleComplete_known _ _ _ _ Hf).
      apply (replayable_push (tasks st)). simpl.
      rewrite ids_at_id by reflexivity.
      apply find_known in Hf as (_ & _ & Hk). now split.
    + unfold toggleComplete. now rewrite Hf.
  - now apply deleteTask_replayable.
  - destruct (find_first (has_id k) (tasks st)) as [task|] eqn:Hf.
    2:{ unfold updateTaskTitle. now rewrite Hf. }
    destruct (trim ti) as [|c r] eqn:E.
    { rewrite updateTaskTitle_blank by exact E.
      now apply deleteTask_replayable. }
    destruct (list_eq_dec N.eq_dec ti (title task)) as [He|Hne].
    + rewrite (updateTaskTitle_same _ _ _ _ task); auto.
      rewrite E. discriminate.
    + rewrite (updateTaskTitle_changed _ _ _ _ task) by
        (auto; rewrite E; discriminate).
      apply (replayable_push (tasks st)). simpl.
      rewrite ids_at_id by reflexivity.
      apply find_known in Hf as (_ & _ & Hk). now split.
  - unfold replayable. now rewrite ids_handleReorder.
  - destruct (undoStack st) as [|a0 log0] eqn:E.
    { now rewrite undo_empty. }
    destruct (exists_last (l := a0 :: log0)) as (log & a & E');
      [discriminate|].
    unfold replayable in Hok. rewrite E, E', rev_app_distr in Hok.
    rewrite <- (mkState_eta st), E, E', undo_pushed.
    unfold replayable, transact. cbn [tasks undoStack fold_left].
    simpl rev in Hok. simpl app in Hok.
    destruct a as [task|task idx|k w|k old new]; simpl in Hok;
      cbn [fold_left]; change (@map Task string id) with ids in *.
    + destruct Hok as [_ Hok].
      apply (log_ok_equiv _ (remove string_dec (id task) (ids (tasks st))));
        [|exact Hok].
      intros x. cbn [apply_step]. rewrite ids_filter_other. split.
      * intros H. apply in_remove in H. tauto.
      * intros [H1 H2]. now apply in_in_remove.
    + apply (log_ok_equiv _ (id task :: ids (tasks st))); [|exact Hok].
      intros x.
      rewrite (ids_apply_update_whole _ _ (touch now task)) by reflexivity.
      cbn [In]. intuition congruence.
    + destruct Hok as [Hk Hok]. now rewrite ids_apply_update_known.
    + destruct Hok as [Hk Hok]. now rewrite ids_apply_update_known.
Qed.

Lemma wf_reachable_replayable (st : State) : wf_reachable st -> replayable st.
Proof.
  induction 1 as [|st e _ IH Hwf]; [exact I|].
  now apply step_replayable.
Qed.

(** In a run of well-formed events the entry that [undo] reverts names a
    task of the store whenever it patches one. *)
Lemma undo_addresses_known (st : State) (log : list Action) (a : Action) :
  wf_reachable st -> undoStack st = log ++ [a] ->
  match a with
  | TOGGLE_COMPLETE k _ | UPDATE_TASK k _ _ => In k (map id (tasks st))
  | ADD_TASK task => In (id task) (map id (tasks st))
  | DELETE_TASK _ _ => True
  end.
Proof.
  intros Hr E. apply wf_reachable_replayable in Hr.
  unfold replayable in Hr. rewrite E, rev_app_distr in Hr. simpl in Hr.
  destruct a; simpl in Hr; tauto.
Qed.

(** *** add *)

(** C3, as the code has it.  For a title that is not blank and an id that
    is new to the collection, [addTask] appends one task with that id, the
    title, [isCompleted = false], both timestamps [now] and [sortOrder]
    equal to the size of the whole collection (active and completed tasks
    together), and pushes an [ADD_TASK] record of that task. *)
Theorem addTask_appends_task (st : State) (ti : jsstring) (k : string)
    (now : Z) :
  trim ti <> [] -> ~ In k (ids (tasks st)) ->
  let t := {| id := k; title := ti; isCompleted := false;
              sortOrder := Z.of_nat (length (tasks st));
              createdAt := Some now; updatedAt := Some now;
              userId := None |} in
  tasks (addTask ti k now st) = tasks st ++ [t] /\
  undoStack (addTask ti k now st) = undoStack st ++ [ADD_TASK t].
Proof.
  intros Ht Hk t. rewrite addTask_fresh by assumption. now split.
Qed.

(** C9. [addTask] stores the text of the field as typed: whenever its
    trimmed form is not empty, the task filed under the new id, and the
    task recorded in the undo log, carry the title itself, surrounding
    white space included. *)
Theorem addTask_title_verbatim (st : State) (ti : jsstring) (k : string)
    (now : Z) :
  trim ti <> [] ->
  (exists t, In t (tasks (addTask ti k now st)) /\ id t = k) /\
  (forall t, In t (tasks (addTask ti k now st)) -> id t = k -> title t = ti) /\
  (exists task, undoStack (addTask ti k now st) = undoStack st ++ [ADD_TASK task]
                /\ id task = k /\ title task = ti).
Proof.
  intros Ht.
  destruct (in_dec string_dec k (ids (tasks st))) as [Hk|Hk].
  - rewrite addTask_known by assumption. cbn [tasks undoStack].
    repeat split.
    + unfold ids in Hk. apply in_map_iff in Hk as [t0 [Hid Hin]].
      eexists. split.
      * apply in_at_id. exists t0. split; [exact Hin|reflexivity].
      * rewrite (proj2 (has_id_true k t0) Hid). exact Hid.
    + intros t Hin Hid. apply in_at_id in Hin as [t0 [_ ->]].
      destruct (has_id k t0) eqn:E; [reflexivity|].
      apply has_id_false in E. contradiction.
    + eexists. split; [reflexivity|]. now split.
  - rewrite addTask_fresh by assumption. simpl.
    repeat split.
    + eexists. split; [apply in_or_app; right; left; reflexivity|reflexivity].
    + intros t Hin Hid. apply in_app_or in Hin as [Hin|[<-|[]]]; [|reflexivity].
      exfalso. apply Hk. unfold ids. rewrite <- Hid. now apply in_map.
    + eexists. split; [reflexivity|]. now split.
Qed.

(** *** rename *)

(** C5. For a known id, [updateTaskTitle] with a blank title is
    [deleteTask]: the task leaves the collection and one [DELETE_TASK]
    record is pushed; with a title that is not blank and differs from the
    current one it writes the title and the time on that task and pushes an
    [UPDATE_TASK] record; with the current title, which is not blank in any
    reachable state, it changes nothing at all. *)
Theorem updateTaskTitle_cases (st : State) (k : string) (ti : jsstring)
    (now : Z) (task : Task) :
  find_first (has_id k) (tasks st) = Some task ->
  (trim ti = [] ->
     updateTaskTitle k ti now st = deleteTask k st /\
     tasks (updateTaskTitle k ti now st) =
       filter (fun t => negb (String.eqb (id t) k)) (tasks st) /\
     exists i, undoStack (updateTaskTitle k ti now st) =
               undoStack st ++ [DELETE_TASK task i]) /\
  (trim ti <> [] -> ti <> title task ->
     tasks (updateTaskTitle k ti now st) =
       map (fun t => if String.eqb (id t) k
                     then {| id := id t; title := ti;
                             isCompleted := isCompleted t;
                             sortOrder := sortOrder t;
                             createdAt := createdAt t;
                             updatedAt := Some now;
                             userId := userId t |}
                     else t) (tasks st) /\
     undoStack (updateTaskTitle k ti now st) =
       undoStack st ++ [UPDATE_TASK k (title task) ti]) /\
  (trim ti <> [] -> ti = title task -> updateTaskTitle k ti now st = st) /\
  (reachable st -> ti = title task -> updateTaskTitle k ti now st = st).
Proof.
  intros Hf. split; [|split; [|split]].
  - intros Ht. rewrite updateTaskTitle_blank by assumption.
    rewrite (deleteTask_known _ _ _ Hf). simpl. repeat split. eauto.
  - intros Ht Hne.
    rewrite (updateTaskTitle_changed _ _ _ _ _ Hf Ht Hne). now split.
  - intros Ht He. now apply (updateTaskTitle_same _ _ _ _ task).
  - intros Hr He. apply (updateTaskTitle_same _ _ _ _ task); auto.
    apply reachable_titles_ok in Hr as [Hr _].
    rewrite Forall_forall in Hr. subst ti. apply Hr.
    now apply find_known in Hf.
Qed.

(** *** toggle *)

(** C10. For a known id, [toggleComplete] leaves every other task as it is
    and, on the task itself, changes [isCompleted] and [updatedAt] only:
    [id], [title], [createdAt], [userId] and [sortOrder] stay.  Hence a
    completed task that is toggled again is back in the active view with
    the [sortOrder] it had, and there is a run after which that value is
    also the [sortOrder] of another active task. *)
Theorem toggleComplete_frame :
  (forall (st : State) (k : string) (now : Z),
     NoDup (ids (tasks st)) -> In k (ids (tasks st)) ->
     Forall2
       (fun t t' =>
          id t' = id t /\ title t' = title t /\ sortOrder t' = sortOrder t /\
          createdAt t' = createdAt t /\ userId t' = userId t /\
          (id t <> k -> t' = t) /\
          (id t = k ->
             isCompleted t' = negb (isCompleted t) /\ updatedAt t' = Some now))
       (tasks st) (tasks (toggleComplete k now st))) /\
  (forall (st : State) (k : string) (now : Z) (task : Task),
     find_first (has_id k) (tasks st) = Some task ->
     isCompleted task = true ->
     exists t', In t' (activeTasks (tasks (toggleComplete k now st))) /\
                id t' = k /\ sortOrder t' = sortOrder task) /\
  (exists (es : list Event) (k : string) (now : Z) (a b : Task),
     let st' := toggleComplete k now (run es initial) in
     In a (activeTasks (tasks st')) /\ In b (activeTasks (tasks st')) /\
     id a = k /\ id b <> k /\ sortOrder a = sortOrder b).
Proof.
  split; [|split].
  - intros st k now Hnd Hk.
    destruct (known_find _ _ Hk) as [task Hf].
    rewrite (toggleComplete_known _ _ _ _ Hf). simpl.
    apply find_known in Hf as (Hin & Hid & _).
    assert (Huniq : forall t, In t (tasks st) -> id t = k -> t = task).
    { clear Hk. revert Hnd Hin Hid. generalize (tasks st) as ts.
      induction ts as [|x ts IH]; simpl; [tauto|].
      intros Hnd Hin Hid t Ht Htk. inversion Hnd as [|? ? Hn Hd]; subst.
      destruct Hin as [->|Hin], Ht as [->|Ht]; auto.
      - exfalso. apply Hn. unfold ids. rewrite <- Htk. now apply in_map.
      - exfalso. apply Hn. unfold ids. rewrite Htk.
        change (In (id task) (map id ts)). now apply in_map. }
    clear Hin Hnd Hk. revert Huniq. generalize (tasks st) as ts.
    induction ts as [|x ts IH]; intros Huniq; simpl; constructor.
    + destruct (has_id k x) eqn:E.
      * apply has_id_true in E.
        rewrite (Huniq x (or_introl eq_refl) E). simpl.
        repeat split; auto; congruence.
      * apply has_id_false in E. repeat split; auto; congruence.
    + apply IH. intros t Ht. apply Huniq. now right.
  - intros st k now task Hf Hc.
    rewrite (toggleComplete_known _ _ _ _ Hf). simpl.
    apply find_known in Hf as (Hin & Hid & _).
    exists (set_completed (negb (isCompleted task)) now task).
    repeat split; auto.
    unfold activeTasks.
    eapply Permutation_in; [symmetry; apply sort_perm|].
    apply filter_In. split; [|simpl; now rewrite Hc].
    apply in_at_id. exists task. split; [assumption|].
    apply has_id_true in Hid. now rewrite Hid.
  - pose (s3 := run [EvAdd (js "A") "a" 1; EvAdd (js "B") "b" 2;
                     EvToggle "a" 3] initial).
    exists [EvAdd (js "A") "a" 1; EvAdd (js "B") "b" 2; EvToggle "a" 3;
            EvReorder (activeTasks (tasks s3)) 4], "a", 5.
    eexists (mkTask "a" (js "A") false 0 (Some 1) (Some 5) None).
    eexists (mkTask "b" (js "B") false 0 (Some 2) (Some 4) None).
    vm_compute. repeat split; auto. discriminate.
Qed.

(** *** The derived views *)

Lemma by_sortOrder_key (a b : Task) :
  by_sortOrder a b <= 0 <-> sortOrder a <= sortOrder b.
Proof. unfold by_sortOrder. lia. Qed.

Lemma by_recency_key (a b : Task) :
  by_recency a b <= 0 <-> - or0 (updatedAt a) <= - or0 (updatedAt b).
Proof. unfold by_recency. lia. Qed.

Lemma activeTasks_eq (ts : list Task) :
  activeTasks ts = sort by_sortOrder (filter is_active ts).
Proof. reflexivity. Qed.

Lemma activeTasks_perm (ts : list Task) :
  Permutation (activeTasks ts) (filter is_active ts).
Proof. apply sort_perm. Qed.

Lemma completedTasks_perm (ts : list Task) :
  Permutation (completedTasks ts) (filter (fun t => isCompleted t) ts).
Proof. apply sort_perm. Qed.

Lemma activeTasks_sorted (ts : list Task) :
  StronglySorted (key_le sortOrder) (activeTasks ts).
Proof. apply (sort_sorted by_sortOrder sortOrder by_sortOrder_key). Qed.

Lemma activeTasks_ids (ts : list Task) (k : string) :
  In k (ids (activeTasks ts)) -> In k (ids ts).
Proof.
  intros H. apply (ids_filter_subset is_active).
  unfold ids in *. eapply Permutation_in; [|exact H].
  apply Permutation_map, activeTasks_perm.
Qed.

(** Any arrangement of the active tasks that is ordered by distinct
    [sortOrder] values is the active view. *)
Lemma activeTasks_unique (ts view : list Task) :
  Permutation (filter is_active ts) view ->
  StronglySorted Z.le (map sortOrder view) -> NoDup (map sortOrder view) ->
  activeTasks ts = view.
Proof.
  intros Hp Hs Hnd. rewrite activeTasks_eq.
  apply (sort_eq_of_sorted by_sortOrder sortOrder by_sortOrder_key); auto.
  now apply StronglySorted_of_keys.
Qed.

(** C8. The two views split the collection: the active view holds exactly
    the tasks that are not completed, in ascending [sortOrder]; the
    completed view holds exactly the completed ones, in descending
    [updatedAt] (a missing [updatedAt] counting as 0); together they are a
    rearrangement of the collection and they share no task. *)
Theorem views_bipartition (ts : list Task) :
  Permutation (activeTasks ts) (filter (fun t => negb (isCompleted t)) ts) /\
  StronglySorted (fun a b => sortOrder a <= sortOrder b) (activeTasks ts) /\
  Permutation (completedTasks ts) (filter (fun t => isCompleted t) ts) /\
  StronglySorted (fun a b => or0 (updatedAt a) >= or0 (updatedAt b))
                 (completedTasks ts) /\
  Permutation (activeTasks ts ++ completedTasks ts) ts /\
  (forall t, In t (activeTasks ts) <-> In t ts /\ isCompleted t = false) /\
  (forall t, In t (completedTasks ts) <-> In t ts /\ isCompleted t = true) /\
  (forall t, In t (activeTasks ts) -> ~ In t (completedTasks ts)).
Proof.
  assert (Ha : forall t, In t (activeTasks ts) <->
                         In t ts /\ isCompleted t = false).
  { intros t. rewrite <- (negb_true_iff (isCompleted t)).
    rewrite <- (filter_In (fun t => negb (isCompleted t))).
    split; apply Permutation_in;
      [apply activeTasks_perm|symmetry; apply activeTasks_perm]. }
  assert (Hc : forall t, In t (completedTasks ts) <->
                         In t ts /\ isCompleted t = true).
  { intros t. rewrite <- (filter_In (fun t => isCompleted t)).
    split; apply Permutation_in;
      [apply completedTasks_perm|symmetry; apply completedTasks_perm]. }
  refine (conj _ (conj _ (conj _ (conj _ (conj _ (conj Ha (conj Hc _))))))).
  - apply activeTasks_perm.
  - apply activeTasks_sorted.
  - apply completedTasks_perm.
  - eapply StronglySorted_impl;
      [|apply (sort_sorted by_recency (fun t => - or0 (updatedAt t))
                           by_recency_key)].
    unfold key_le. intros; lia.
  - rewrite activeTasks_perm, completedTasks_perm.
    apply (Permutation_split (fun t => isCompleted t)).
  - intros t H1 H2. apply Ha in H1 as [_ H1]. apply Hc in H2 as [_ H2].
    congruence.
Qed.

(** *** reorder *)

Lemma renumber_id (ks : list string) (i now : Z) (t : Task) :
  id (renumber ks i now t) = id t.
Proof.
  revert i t. induction ks as [|k ks IH]; simpl; intros i t; [reflexivity|].
  rewrite IH. now destruct (has_id k t).
Qed.

Lemma renumber_isCompleted (ks : list string) (i now : Z) (t : Task) :
  isCompleted (renumber ks i now t) = isCompleted t.
Proof.
  revert i t. induction ks as [|k ks IH]; simpl; intros i t; [reflexivity|].
  rewrite IH. now destruct (has_id k t).
Qed.

Lemma renumber_other (ks : list string) (i now : Z) (t : Task) :
  ~ In (id t) ks -> renumber ks i now t = t.
Proof.
  revert i. induction ks as [|k ks IH]; simpl; intros i H; [reflexivity|].
  destruct (has_id k t) eqn:E.
  - apply has_id_true in E. exfalso. auto.
  - apply IH. tauto.
Qed.

(** The transaction of [handleReorder], entity by entity. *)
Lemma transact_reorder (newOrder : list Task) (i now : Z) (store : list Task) :
  (forall k, In k (ids newOrder) -> In k (ids store)) ->
  transact
    (mapi_from (fun task index =>
                  tx_update (id task)
                    (mkAttrs None None (Some index) None (Some now) None))
               i newOrder)
    store
  = map (renumber (ids newOrder) i now) store.
Proof.
  unfold transact. revert i store.
  induction newOrder as [|x newOrder IH]; intros i store Hsub; simpl.
  - symmetry. apply map_id.
  - assert (Hx : existsb (has_id (id x)) store = true).
    { apply existsb_has_id, Hsub. now left. }
    rewrite Hx.
    change (map (fun t => if has_id (id x) t then merge _ t else t) store)
      with (at_id (id x) (set_sortOrder i now) store).
    rewrite IH.
    + unfold at_id. rewrite map_map. reflexivity.
    + intros k Hk. rewrite ids_at_id by reflexivity. apply Hsub. now right.
Qed.

Lemma renumber_in_order (view : list Task) (i now : Z) :
  NoDup (ids view) ->
  map (renumber (ids view) i now) view =
  mapi_from (fun t index => set_sortOrder index now t) i view.
Proof.
  revert i. induction view as [|x view IH]; intros i Hnd; [reflexivity|].
  inversion Hnd as [|? ? Hn Hd]; subst.
  cbn [ids map mapi_from renumber].
  rewrite (proj2 (has_id_true (id x) x) eq_refl).
  rewrite renumber_other by exact Hn.
  f_equal. rewrite <- IH by assumption.
  apply map_ext_in. intros t Ht.
  destruct (has_id (id x) t) eqn:E; [|reflexivity].
  apply has_id_true in E. exfalso. apply Hn.
  rewrite <- E. now apply in_map.
Qed.

Lemma mapi_from_sortOrder (view : list Task) (i now : Z) :
  map sortOrder (mapi_from (fun t index => set_sortOrder index now t) i view)
  = indices_from i (length view).
Proof.
  revert i. induction view as [|x view IH]; intros i; simpl; [reflexivity|].
  now rewrite IH.
Qed.

Lemma mapi_from_ids (view : list Task) (i now : Z) :
  ids (mapi_from (fun t index => set_sortOrder index now t) i view) = ids view.
Proof.
  revert i. induction view as [|x view IH]; intros i; simpl; [reflexivity|].
  now rewrite IH.
Qed.

(** After [handleReorder] the active view is the active tasks in the order
    submitted, numbered from 0. *)
Lemma handleReorder_view (st : State) (newOrder : list Task) (now : Z) :
  NoDup (ids (tasks st)) ->
  Permutation (ids newOrder) (ids (activeTasks (tasks st))) ->
  exists view,
    Permutation (filter is_active (tasks st)) view /\
    ids view = ids newOrder /\
    activeTasks (tasks (handleReorder newOrder now st)) =
    mapi (fun t index => set_sortOrder index now t) view.
Proof.
  intros Hnd Hperm.
  assert (Hperm' : Permutation (ids newOrder)
                               (map id (filter is_active (tasks st)))).
  { rewrite Hperm. apply Permutation_map, activeTasks_perm. }
  destruct (Permutation_map_inv _ _ Hperm') as [view [Hids Hview]].
  exists view. split; [exact Hview|]. split; [now symmetry|].
  assert (Hsub : forall k, In k (ids newOrder) -> In k (ids (tasks st))).
  { intros k Hk. apply activeTasks_ids.
    eapply Permutation_in; [exact Hperm|exact Hk]. }
  unfold handleReorder, mapi. cbn [tasks].
  rewrite transact_reorder by exact Hsub.
  assert (Hndv : NoDup (ids view)).
  { unfold ids. rewrite <- Hids.
    eapply Permutation_NoDup; [symmetry; exact Hperm'|].
    now apply NoDup_ids_filter. }
  apply activeTasks_unique.
  - rewrite filter_map_swap.
    rewrite (filter_ext (fun a => is_active (renumber (ids newOrder) 0 now a))
                        is_active)
      by (intros a; unfold is_active; now rewrite renumber_isCompleted).
    rewrite Hids. change (map id view) with (ids view).
    rewrite <- renumber_in_order by exact Hndv.
    now apply Permutation_map.
  - rewrite mapi_from_sortOrder. apply indices_from_sorted.
  - rewrite mapi_from_sortOrder. apply indices_from_NoDup.
Qed.

(** C7. When the ids submitted are a rearrangement of the ids of the active
    view, [handleReorder] leaves the active view in the submitted order with
    [sortOrder] values 0, 1, ..., n-1 by position, and it pushes nothing on
    the undo log. *)
Theorem handleReorder_renumbers (st : State) (newOrder : list Task) (now : Z) :
  NoDup (map id (tasks st)) ->
  Permutation (map id newOrder) (map id (activeTasks (tasks st))) ->
  map id (activeTasks (tasks (handleReorder newOrder now st)))
    = map id newOrder /\
  map sortOrder (activeTasks (tasks (handleReorder newOrder now st)))
    = upto (length newOrder) /\
  undoStack (handleReorder newOrder now st) = undoStack st.
Proof.
  intros Hnd Hperm.
  destruct (handleReorder_view st newOrder now Hnd Hperm)
    as (view & _ & Hids & ->).
  unfold mapi. split; [|split].
  - change (ids (mapi_from (fun t index => set_sortOrder index now t) 0 view)
            = ids newOrder).
    now rewrite mapi_from_ids.
  - rewrite mapi_from_sortOrder. unfold upto. f_equal.
    apply (f_equal (@length string)) in Hids.
    unfold ids in Hids. now rewrite !length_map in Hids.
  - reflexivity.
Qed.

(** *** Contiguity of the active [sortOrder] values *)

Lemma activeTasks_filter_id (k : string) (ts : list Task) :
  activeTasks (filter (fun t => negb (has_id k t)) ts) =
  filter (fun t => negb (has_id k t)) (activeTasks ts).
Proof.
  rewrite !activeTasks_eq.
  rewrite (sort_filter by_sortOrder sortOrder by_sortOrder_key).
  f_equal. apply filter_comm.
Qed.

Lemma activeTasks_push (ts : list Task) (t : Task) :
  (forall x, In x ts -> isCompleted x = false) ->
  isCompleted t = false -> sortOrder t = Z.of_nat (length ts) ->
  contiguous (activeTasks ts) ->
  activeTasks (ts ++ [t]) = activeTasks ts ++ [t].
Proof.
  intros Hall Ht Hso Hc.
  assert (Hfil : filter is_active ts = ts).
  { clear Hc Hso. induction ts as [|x ts IH]; simpl; [reflexivity|].
    unfold is_active at 1. rewrite (Hall x (or_introl eq_refl)). simpl.
    f_equal. apply IH. intros y Hy. apply Hall. now right. }
  assert (Hlen : length (activeTasks ts) = length ts).
  { rewrite <- Hfil at 2. apply Permutation_length, activeTasks_perm. }
  assert (Hkeys : map sortOrder (activeTasks ts ++ [t])
                  = indices_from 0 (S (length ts))).
  { rewrite map_app, Hc, Hlen, indices_from_snoc. simpl.
    now rewrite Hso. }
  apply activeTasks_unique.
  - rewrite filter_app. simpl. unfold is_active at 2. rewrite Ht. simpl.
    apply Permutation_app_tail. symmetry. apply activeTasks_perm.
  - rewrite Hkeys. apply indices_from_sorted.
  - rewrite Hkeys. apply indices_from_NoDup.
Qed.

(** C4, as the code has it.  After [handleReorder] with a rearrangement of
    the active ids the active [sortOrder] values are 0..n-1 in list order.
    [addTask] and [deleteTask] renumber nothing: after an add the values are
    0..n when they were 0..n-1 before and no task of the collection is
    completed; after a delete the active view is the former one without the
    deleted task, every remaining task with the [sortOrder] it had. *)
Theorem sortOrder_after_operations (st : State) :
  NoDup (map id (tasks st)) ->
  (forall newOrder now,
     Permutation (map id newOrder) (map id (activeTasks (tasks st))) ->
     contiguous (activeTasks (tasks (handleReorder newOrder now st)))) /\
  (forall ti k now,
     trim ti <> [] -> ~ In k (map id (tasks st)) ->
     (forall t, In t (tasks st) -> isCompleted t = false) ->
     contiguous (activeTasks (tasks st)) ->
     contiguous (activeTasks (tasks (addTask ti k now st)))) /\
  (forall k,
     activeTasks (tasks (deleteTask k st)) =
     filter (fun t => negb (String.eqb (id t) k)) (activeTasks (tasks st))).
Proof.
  intros Hnd. split; [|split].
  - intros newOrder now Hperm.
    destruct (handleReorder_view st newOrder now Hnd Hperm)
      as (view & _ & _ & ->).
    unfold contiguous, mapi, upto.
    now rewrite mapi_from_sortOrder, mapi_from_length.
  - intros ti k now Hti Hk Hall Hc.
    rewrite addTask_fresh by assumption. cbn [tasks].
    rewrite activeTasks_push; auto.
    unfold contiguous in *. rewrite map_app, length_app, Hc. simpl.
    unfold upto.
    replace (length (activeTasks (tasks st)) + 1)%nat
      with (S (length (activeTasks (tasks st)))) by lia.
    rewrite indices_from_snoc. simpl. do 2 f_equal.
    f_equal. symmetry. transitivity (length (filter is_active (tasks st))).
    + apply Permutation_length, activeTasks_perm.
    + f_equal. clear - Hall. induction (tasks st) as [|x ts IH]; simpl; auto.
      unfold is_active at 1. rewrite (Hall x (or_introl eq_refl)). simpl.
      f_equal. apply IH. intros y Hy. apply Hall. now right.
  - intros k.
    destruct (find_first (has_id k) (tasks st)) as [task|] eqn:Hf.
    + rewrite (deleteTask_known _ _ _ Hf). cbn [tasks].
      apply activeTasks_filter_id.
    + assert (Hk : ~ In k (ids (tasks st))).
      { intros Hk. apply known_find in Hk as [t Ht]. congruence. }
      rewrite deleteTask_unknown by exact Hk.
      symmetry. apply filter_not_id_fresh.
      intros Hin. apply Hk. now apply activeTasks_ids.
Qed.

(** *** undo *)

Lemma unique_by_id (ts : list Task) (t t' : Task) :
  NoDup (ids ts) -> In t ts -> In t' ts -> id t = id t' -> t = t'.
Proof. apply NoDup_map_In_inj. Qed.

Lemma at_id_at_id (k : string) (f g : Task -> Task) (ts : list Task) :
  (forall t, id (g t) = id t) ->
  at_id k f (at_id k g ts) = at_id k (fun t => f (g t)) ts.
Proof.
  intros Hg. unfold at_id. rewrite map_map. apply map_ext. intros t.
  destruct (has_id k t) eqn:E; [|now rewrite E].
  unfold has_id in *. now rewrite Hg, E.
Qed.

Lemma at_id_ext_in (k : string) (f g : Task -> Task) (ts : list Task) :
  (forall t, In t ts -> id t = k -> f t = g t) ->
  at_id k f ts = at_id k g ts.
Proof.
  intros H. apply map_ext_in. intros t Ht.
  destruct (has_id k t) eqn:E; [|reflexivity].
  apply H; auto. now apply has_id_true.
Qed.

Lemma filter_other_at_id (k : string) (f : Task -> Task) (ts : list Task) :
  (forall t, id (f t) = id t) ->
  filter (fun t => negb (has_id k t)) (at_id k f ts) =
  filter (fun t => negb (has_id k t)) ts.
Proof.
  intros Hf. induction ts as [|x ts IH]; simpl; [reflexivity|].
  destruct (has_id k x) eqn:E; simpl.
  - unfold has_id in *. rewrite Hf, E. simpl. exact IH.
  - rewrite E. simpl. now rewrite IH.
Qed.

Lemma filter_same_at_id (k : string) (f : Task -> Task) (ts : list Task) :
  (forall t, id (f t) = id t) ->
  filter (has_id k) (at_id k f ts) = map f (filter (has_id k) ts).
Proof.
  intros Hf. induction ts as [|x ts IH]; simpl; [reflexivity|].
  destruct (has_id k x) eqn:E; simpl.
  - unfold has_id in *. rewrite Hf, E. simpl. now rewrite IH.
  - rewrite E. exact IH.
Qed.

Lemma filter_has_id_unique (k : string) (ts : list Task) (task : Task) :
  NoDup (ids ts) -> In task ts -> id task = k ->
  filter (has_id k) ts = [task].
Proof.
  intros Hnd Hin Hid.
  induction ts as [|x ts IH]; simpl in *; [contradiction|].
  inversion Hnd as [|? ? Hn Hd]; subst.
  destruct Hin as [->|Hin].
  - rewrite (proj2 (has_id_true _ _) eq_refl). f_equal.
    assert (Hfresh : ~ In (id task) (ids (filter (has_id (id task)) ts))).
    { intros H. apply Hn. eapply ids_filter_subset; eauto. }
    destruct (filter (has_id (id task)) ts) as [|y l] eqn:E; [reflexivity|].
    exfalso. apply Hfresh.
    assert (Hy : In y (filter (has_id (id task)) ts)) by (rewrite E; now left).
    apply filter_In in Hy as [_ Hy]. apply has_id_true in Hy.
    simpl. now left.
  - destruct (has_id (id task) x) eqn:E; [|now apply IH].
    apply has_id_true in E. exfalso. apply Hn.
    rewrite E. now apply in_map.
Qed.

(** The collection after a delete and its undo, up to the place of the
    restored entity in the store. *)
Lemma restore_perm (k : string) (now : Z) (ts : list Task) (task : Task) :
  NoDup (ids ts) -> In task ts -> id task = k ->
  Permutation (filter (fun t => negb (has_id k t)) ts ++ [touch now task])
              (at_id k (touch now) ts).
Proof.
  intros Hnd Hin Hid.
  rewrite <- (Permutation_split (has_id k) (at_id k (touch now) ts)).
  rewrite filter_other_at_id, filter_same_at_id by reflexivity.
  now rewrite (filter_has_id_unique k ts task).
Qed.

Lemma active_at_id_touch (k : string) (now : Z) (ts : list Task) :
  filter is_active (at_id k (touch now) ts) =
  at_id k (touch now) (filter is_active ts).
Proof.
  unfold at_id. rewrite filter_map_swap. f_equal.
  apply filter_ext. intros t. now destruct (has_id k t).
Qed.

Lemma sortOrder_at_id_touch (k : string) (now : Z) (ts : list Task) :
  map sortOrder (at_id k (touch now) ts) = map sortOrder ts.
Proof.
  unfold at_id. rewrite map_map. apply map_ext. intros t.
  now destruct (has_id k t).
Qed.

(** C1, as the code has it.  [undo] takes back what the last logged action
    changed and consumes its log entry, and it stamps the task it writes
    with the time of the undo instead of restoring [updatedAt].  After an
    add (fresh id) the state is the one before the add.  After a toggle or
    a rename the state is the one before, except that [updatedAt] of the
    task is the undo time.  After a delete the collection holds the tasks
    it held before, the restored one with [updatedAt] the undo time, and
    when the active [sortOrder] values are distinct the active view is the
    former one, the restored task at its former index. *)
Theorem undo_reverses_last_action (st : State) (now now' : Z) :
  NoDup (map id (tasks st)) ->
  (forall ti k,
     trim ti <> [] -> ~ In k (map id (tasks st)) ->
     undo now' (addTask ti k now st) = st) /\
  (forall k task,
     find_first (has_id k) (tasks st) = Some task ->
     undo now' (toggleComplete k now st) =
     mkState (at_id k (touch now') (tasks st)) (undoStack st)) /\
  (forall k ti task,
     find_first (has_id k) (tasks st) = Some task ->
     trim ti <> [] -> ti <> title task ->
     undo now' (updateTaskTitle k ti now st) =
     mkState (at_id k (touch now') (tasks st)) (undoStack st)) /\
  (forall k task,
     find_first (has_id k) (tasks st) = Some task ->
     undoStack (undo now' (deleteTask k st)) = undoStack st /\
     Permutation (tasks (undo now' (deleteTask k st)))
                 (at_id k (touch now') (tasks st)) /\
     (NoDup (map sortOrder (activeTasks (tasks st))) ->
      activeTasks (tasks (undo now' (deleteTask k st))) =
      at_id k (touch now') (activeTasks (tasks st)))).
Proof.
  intros Hnd. split; [|split; [|split]].
  - intros ti k Hti Hk.
    rewrite addTask_fresh by assumption. rewrite undo_pushed.
    unfold transact; simpl. rewrite filter_app; simpl.
    rewrite (proj2 (has_id_true k (newTask ti k now st)) eq_refl); simpl.
    rewrite filter_not_id_fresh by assumption.
    rewrite app_nil_r. apply mkState_eta.
  - intros k task Hf.
    rewrite (toggleComplete_known _ _ _ _ Hf), undo_pushed.
    apply find_known in Hf as (Hin & Hid & Hk).
    rewrite update_known by (now rewrite ids_at_id).
    rewrite at_id_at_id by reflexivity.
    f_equal. apply at_id_ext_in. intros t Ht Htk.
    assert (t = task) as ->
      by (apply (unique_by_id (tasks st));
          [exact Hnd|assumption|assumption|congruence]).
    reflexivity.
  - intros k ti task Hf Hti Hne.
    rewrite (updateTaskTitle_changed _ _ _ _ _ Hf Hti Hne), undo_pushed.
    apply find_known in Hf as (Hin & Hid & Hk).
    rewrite update_known by (now rewrite ids_at_id).
    rewrite at_id_at_id by reflexivity.
    f_equal. apply at_id_ext_in. intros t Ht Htk.
    assert (t = task) as ->
      by (apply (unique_by_id (tasks st));
          [exact Hnd|assumption|assumption|congruence]).
    reflexivity.
  - intros k task Hf.
    rewrite (deleteTask_known _ _ _ Hf), undo_pushed.
    apply find_known in Hf as (Hin & Hid & Hk).
    assert (Hgone : ~ In (id task)
                      (ids (filter (fun t => negb (has_id k t)) (tasks st)))).
    { rewrite Hid. unfold ids. rewrite in_map_iff. intros [t [Ht Hint]].
      apply filter_In in Hint as [_ Hint].
      apply has_id_true in Ht. now rewrite Ht in Hint. }
    rewrite (update_fresh _ _ (touch now' task)) by (exact Hgone || reflexivity).
    cbn [tasks undoStack].
    assert (Hperm := restore_perm k now' (tasks st) task Hnd Hin Hid).
    split; [reflexivity|]. split; [exact Hperm|].
    intros Hso. apply activeTasks_unique.
    + rewrite (Permutation_filter is_active _ _ Hperm).
      rewrite active_at_id_touch.
      unfold at_id. apply Permutation_map. symmetry. apply activeTasks_perm.
    + rewrite sortOrder_at_id_touch.
      apply keys_of_StronglySorted, activeTasks_sorted.
    + now rewrite sortOrder_at_id_touch.
Qed.

(** *** No-ops and the push discipline of the undo log *)

Lemma set_completed_changes (t : Task) (now : Z) :
  set_completed (negb (isCompleted t)) now t <> t.
Proof.
  intros H. apply (f_equal isCompleted) in H. simpl in H.
  now destruct (isCompleted t).
Qed.

Lemma set_title_changes (t : Task) (ti : jsstring) (now : Z) :
  ti <> title t -> set_title ti now t <> t.
Proof. intros Hne H. apply (f_equal title) in H. now simpl in H. Qed.

Lemma undo_pops (now : Z) (st : State) :
  undoStack (undo now st) = removelast (undoStack st).
Proof.
  destruct (undoStack st) as [|a log] eqn:E.
  - now rewrite undo_empty.
  - destruct (exists_last (l := a :: log)) as (log' & a' & E');
      [discriminate|].
    rewrite <- (mkState_eta st), E, E', undo_pushed.
    cbn [undoStack]. now rewrite removelast_last.
Qed.

(** C6, as the code has it.  [addTask] with a blank title, [toggleComplete],
    [deleteTask] and [updateTaskTitle] with an id that is not in the
    collection, and [undo] with an empty log return the state they were
    given.  Each of the four logging handlers either returns the state it
    was given or changes the collection and pushes exactly one entry
    ([updateTaskTitle] with a blank title on a known id is of the second
    kind: it deletes).  [handleReorder] leaves the log as it is, and [undo]
    removes its last entry. *)
Theorem noops_and_push_discipline (st : State) :
  (forall ti k now, trim ti = [] -> addTask ti k now st = st) /\
  (forall k now,
     ~ In k (map id (tasks st)) ->
     toggleComplete k now st = st /\ deleteTask k st = st /\
     forall ti, updateTaskTitle k ti now st = st) /\
  (forall now, undoStack st = [] -> undo now st = st) /\
  (forall ti k now,
     ~ In k (map id (tasks st)) ->
     addTask ti k now st = st \/
     (tasks (addTask ti k now st) <> tasks st /\
      exists a, undoStack (addTask ti k now st) = undoStack st ++ [a])) /\
  (forall k now,
     toggleComplete k now st = st \/
     (tasks (toggleComplete k now st) <> tasks st /\
      exists a, undoStack (toggleComplete k now st) = undoStack st ++ [a])) /\
  (forall k,
     deleteTask k st = st \/
     (tasks (deleteTask k st) <> tasks st /\
      exists a, undoStack (deleteTask k st) = undoStack st ++ [a])) /\
  (forall k ti now,
     updateTaskTitle k ti now st = st \/
     (tasks (updateTaskTitle k ti now st) <> tasks st /\
      exists a, undoStack (updateTaskTitle k ti now st) = undoStack st ++ [a])) /\
  (forall newOrder now,
     undoStack (handleReorder newOrder now st) = undoStack st) /\
  (forall now, undoStack (undo now st) = removelast (undoStack st)).
Proof.
  assert (Hdel : forall k,
     deleteTask k st = st \/
     (tasks (deleteTask k st) <> tasks st /\
      exists a, undoStack (deleteTask k st) = undoStack st ++ [a])).
  { intros k.
    destruct (find_first (has_id k) (tasks st)) as [task|] eqn:Hf.
    - right. rewrite (deleteTask_known _ _ _ Hf). cbn [tasks undoStack].
      apply find_known in Hf as (_ & _ & Hk).
      split; [now apply filter_shorter|eauto].
    - left. unfold deleteTask.
      now rewrite (find_first_none_index _ _ Hf). }
  refine (conj _ (conj _ (conj _ (conj _ (conj _ (conj Hdel (conj _
            (conj _ _)))))))).
  - intros ti k now. apply addTask_blank.
  - intros k now Hk. split; [|split].
    + unfold toggleComplete. now rewrite find_unknown.
    + now apply deleteTask_unknown.
    + intros ti. unfold updateTaskTitle. now rewrite find_unknown.
  - intros now. apply undo_empty.
  - intros ti k now Hk.
    destruct (trim ti) as [|c r] eqn:E.
    + left. now apply addTask_blank.
    + right. rewrite addTask_fresh by (rewrite ?E; assumption || discriminate).
      cbn [tasks undoStack]. split; [apply app_one_neq|eauto].
  - intros k now.
    destruct (find_first (has_id k) (tasks st)) as [task|] eqn:Hf.
    + right. rewrite (toggleComplete_known _ _ _ _ Hf). cbn [tasks undoStack].
      apply find_known in Hf as (Hin & Hid & _).
      split; [|eauto].
      apply (at_id_changes _ _ _ task); auto. apply set_completed_changes.
    + left. unfold toggleComplete. now rewrite Hf.
  - intros k ti now.
    destruct (find_first (has_id k) (tasks st)) as [task|] eqn:Hf.
    2:{ left. unfold updateTaskTitle. now rewrite Hf. }
    destruct (trim ti) as [|c r] eqn:E.
    { rewrite updateTaskTitle_blank by exact E. apply Hdel. }
    destruct (list_eq_dec N.eq_dec ti (title task)) as [He|Hne].
    + left. apply (updateTaskTitle_same _ _ _ _ task); auto.
      rewrite E. discriminate.
    + right.
      rewrite (updateTaskTitle_changed _ _ _ _ task) by
        (auto; rewrite E; discriminate).
      cbn [tasks undoStack].
      apply find_known in Hf as (Hin & Hid & _).
      split; [|eauto].
      apply (at_id_changes _ _ _ task); auto. now apply set_title_changes.
  - reflexivity.
  - intros now. apply undo_pops.
Qed.

(** *** Where the code departs from the specification *)

(** Against C1: a toggle undone leaves [updatedAt] at the undo time, not at
    its former value; and a completed task deleted and restored moves to the
    head of the completed view. *)
Lemma undo_does_not_restore_updatedAt :
  reachable one_task /\ reachable two_done /\
  map updatedAt (tasks one_task) = [Some 1] /\
  map updatedAt (tasks (undo 3 (toggleComplete "a" 2 one_task))) = [Some 3] /\
  tasks (undo 3 (toggleComplete "a" 2 one_task)) <> tasks one_task /\
  map id (completedTasks (tasks two_done)) = ["b"; "a"] /\
  map id (completedTasks (tasks (undo 9 (deleteTask "a" two_done))))
    = ["a"; "b"].
Proof.
  split; [eexists; reflexivity|]. split; [eexists; reflexivity|].
  vm_compute. repeat split; discriminate.
Qed.

(** Against C3: with one completed task and no active one, the task added
    gets [sortOrder] 1, the size of the collection, not 0. *)
Lemma addTask_sortOrder_counts_completed :
  trim (js "B") <> [] /\ ~ In "b" (map id (tasks one_done)) /\
  length (activeTasks (tasks one_done)) = 0%nat /\
  map sortOrder (activeTasks (tasks (addTask (js "B") "b" 3 one_done))) = [1] /\
  ~ (exists t,
       tasks (addTask (js "B") "b" 3 one_done) = tasks one_done ++ [t] /\
       sortOrder t = Z.of_nat (length (activeTasks (tasks one_done)))).
Proof.
  vm_compute. repeat split; try discriminate.
  - intros [H|[]]. discriminate.
  - intros [t [H1 H2]]. injection H1 as <-. discriminate.
Qed.

(** Against C4: deleting the first of two active tasks leaves the other
    with [sortOrder] 1; adding next to a completed task gives [sortOrder] 1
    to the only active task. *)
Lemma sortOrder_gap_after_delete_and_add :
  reachable two_tasks /\ contiguous (activeTasks (tasks two_tasks)) /\
  map sortOrder (activeTasks (tasks (deleteTask "a" two_tasks))) = [1] /\
  ~ contiguous (activeTasks (tasks (deleteTask "a" two_tasks))) /\
  reachable one_done /\ contiguous (activeTasks (tasks one_done)) /\
  ~ contiguous (activeTasks (tasks (addTask (js "B") "b" 3 one_done))).
Proof.
  split; [eexists; reflexivity|].
  split; [reflexivity|]. split; [reflexivity|].
  split; [vm_compute; discriminate|].
  split; [eexists; reflexivity|].
  split; [reflexivity|]. vm_compute. discriminate.
Qed.

(** Against C6: renaming a known task to a blank title is no no-op, it
    removes the task and pushes a [DELETE_TASK] entry; and a reorder changes
    the collection without pushing. *)
Lemma blank_rename_is_not_a_noop :
  trim (js "  ") = [] /\ In "a" (map id (tasks one_task)) /\
  length (tasks one_task) = 1%nat /\
  tasks (updateTaskTitle "a" (js "  ") 2 one_task) = [] /\
  length (undoStack one_task) = 1%nat /\
  length (undoStack (updateTaskTitle "a" (js "  ") 2 one_task)) = 2%nat /\
  updateTaskTitle "a" (js "  ") 2 one_task <> one_task /\
  tasks (handleReorder (rev (activeTasks (tasks two_tasks))) 3 two_tasks)
    <> tasks two_tasks /\
  undoStack (handleReorder (rev (activeTasks (tasks two_tasks))) 3 two_tasks)
    = undoStack two_tasks.
Proof.
  vm_compute. repeat split; try discriminate. now left.
Qed.

(** *** Instances *)

Lemma one_task_NoDup : NoDup (map id (tasks one_task)).
Proof. apply reachable_NoDup. eexists; reflexivity. Defined.

Lemma two_tasks_NoDup : NoDup (map id (tasks two_tasks)).
Proof. apply reachable_NoDup. eexists; reflexivity. Defined.

Lemma one_task_finds_a :
  find_first (has_id "a") (tasks one_task)
  = Some (mkTask "a" (js "A") false 0 (Some 1) (Some 1) None).
Proof. reflexivity. Defined.

Lemma undo_reverses_last_action_witness :
  undo 3 (addTask (js "B") "b" 2 one_task) = one_task /\
  undo 3 (toggleComplete "a" 2 one_task) =
    mkState (at_id "a" (touch 3) (tasks one_task)) (undoStack one_task) /\
  undo 3 (updateTaskTitle "a" (js "C") 2 one_task) =
    mkState (at_id "a" (touch 3) (tasks one_task)) (undoStack one_task) /\
  activeTasks (tasks (undo 3 (deleteTask "a" two_tasks))) =
    at_id "a" (touch 3) (activeTasks (tasks two_tasks)).
Proof.
  destruct (undo_reverses_last_action one_task 2 3 one_task_NoDup)
    as (Ha & Ht & Hr & _).
  destruct (undo_reverses_last_action two_tasks 2 3 two_tasks_NoDup)
    as (_ & _ & _ & Hd).
  split; [|split; [|split]].
  - apply Ha; [vm_compute; discriminate|].
    vm_compute. intros [H|[]]. discriminate.
  - apply (Ht "a" _ one_task_finds_a).
  - apply (Hr "a" (js "C") _ one_task_finds_a); vm_compute; discriminate.
  - refine (proj2 (proj2 (Hd "a" _ eq_refl)) _).
    vm_compute. constructor; [intros [H|[]]; discriminate|].
    constructor; [intros []|constructor].
Defined.

Lemma addTask_appends_task_witness :
  tasks (addTask (js " B ") "b" 3 one_done) =
    tasks one_done ++ [mkTask "b" (js " B ") false 1 (Some 3) (Some 3) None] /\
  undoStack (addTask (js " B ") "b" 3 one_done) =
    undoStack one_done
    ++ [ADD_TASK (mkTask "b" (js " B ") false 1 (Some 3) (Some 3) None)].
Proof.
  apply (addTask_appends_task one_done (js " B ") "b" 3).
  - vm_compute; discriminate.
  - vm_compute. intros [H|[]]. discriminate.
Defined.

Lemma addTask_title_verbatim_witness :
  js " B " <> trim (js " B ") /\
  forall t, In t (tasks (addTask (js " B ") "b" 3 one_done)) -> id t = "b" ->
            title t = js " B ".
Proof.
  split; [vm_compute; discriminate|].
  apply (addTask_title_verbatim one_done (js " B ") "b" 3).
  vm_compute; discriminate.
Defined.

Lemma updateTaskTitle_cases_witness :
  updateTaskTitle "a" (js " ") 2 one_task = deleteTask "a" one_task /\
  undoStack (updateTaskTitle "a" (js "C") 2 one_task) =
    undoStack one_task ++ [UPDATE_TASK "a" (js "A") (js "C")] /\
  updateTaskTitle "a" (js "A") 2 one_task = one_task.
Proof.
  destruct (updateTaskTitle_cases one_task "a" (js " ") 2 _ one_task_finds_a)
    as (Hblank & _ & _ & _).
  destruct (updateTaskTitle_cases one_task "a" (js "C") 2 _ one_task_finds_a)
    as (_ & Hnew & _ & _).
  destruct (updateTaskTitle_cases one_task "a" (js "A") 2 _ one_task_finds_a)
    as (_ & _ & Hsame & _).
  split; [|split].
  - apply Hblank. reflexivity.
  - apply Hnew; vm_compute; discriminate.
  - apply Hsame; [vm_compute; discriminate|reflexivity].
Defined.

Lemma noops_and_push_discipline_witness :
  addTask (js "  ") "b" 2 one_task = one_task /\
  toggleComplete "z" 2 one_task = one_task /\
  deleteTask "z" one_task = one_task /\
  updateTaskTitle "z" (js "C") 2 one_task = one_task /\
  undo 2 initial = initial.
Proof.
  destruct (noops_and_push_discipline one_task) as (Hadd & Hid & _).
  destruct (noops_and_push_discipline initial) as (_ & _ & Hundo & _).
  assert (Hz : ~ In "z" (map id (tasks one_task)))
    by (vm_compute; intros [H|[]]; discriminate).
  destruct (Hid "z" 2 Hz) as (Ht & Hd & Hr).
  split; [apply Hadd; reflexivity|].
  split; [exact Ht|]. split; [exact Hd|]. split; [apply Hr|].
  apply Hundo. reflexivity.
Defined.

Lemma handleReorder_renumbers_witness :
  map id (activeTasks (tasks
     (handleReorder (rev (activeTasks (tasks two_tasks))) 3 two_tasks)))
    = ["b"; "a"] /\
  map sortOrder (activeTasks (tasks
     (handleReorder (rev (activeTasks (tasks two_tasks))) 3 two_tasks)))
    = [0; 1] /\
  undoStack (handleReorder (rev (activeTasks (tasks two_tasks))) 3 two_tasks)
    = undoStack two_tasks.
Proof.
  apply (handleReorder_renumbers two_tasks (rev (activeTasks (tasks two_tasks)))
                                 3 two_tasks_NoDup).
  vm_compute. apply perm_swap.
Defined.

Lemma sortOrder_after_operations_witness :
  contiguous (activeTasks (tasks
     (handleReorder (rev (activeTasks (tasks two_tasks))) 3 two_tasks))) /\
  contiguous (activeTasks (tasks (addTask (js "C") "c" 3 two_tasks))) /\
  activeTasks (tasks (deleteTask "a" two_tasks)) =
    filter (fun t => negb (String.eqb (id t) "a")) (activeTasks (tasks two_tasks)).
Proof.
  destruct (sortOrder_after_operations two_tasks two_tasks_NoDup)
    as (Hre & Hadd & Hdel).
  split; [|split].
  - apply Hre. vm_compute. apply perm_swap.
  - apply Hadd.
    + vm_compute; discriminate.
    + vm_compute. intros [H|[H|[]]]; discriminate.
    + intros t [<-|[<-|[]]]; reflexivity.
    + reflexivity.
  - apply Hdel.
Defined.

Lemma toggleComplete_frame_witness :
  Forall2
    (fun t t' =>
       id t' = id t /\ title t' = title t /\ sortOrder t' = sortOrder t /\
       createdAt t' = createdAt t /\ userId t' = userId t /\
       (id t <> "a" -> t' = t) /\
       (id t = "a" ->
          isCompleted t' = negb (isCompleted t) /\ updatedAt t' = Some 5))
    (tasks two_tasks) (tasks (toggleComplete "a" 5 two_tasks)) /\
  exists t', In t' (activeTasks (tasks (toggleComplete "a" 5 one_done))) /\
             id t' = "a" /\ sortOrder t' = 0.
Proof.
  destruct toggleComplete_frame as (Hframe & Hback & _).
  split.
  - apply (Hframe two_tasks "a" 5 two_tasks_NoDup).
    vm_compute. now left.
  - apply (Hback one_done "a" 5
             (mkTask "a" (js "A") true 0 (Some 1) (Some 2) None));
      reflexivity.
Defined.

End SyncedFacts.

(* ================================================================= *)
(** ** Properties of the revision with the collection in React state *)

Module LocalFacts.

Import JsString JsArray JsArrayFacts Local.

Local Open Scope string_scope.
Local Open Scope list_scope.
Local Open Scope Z_scope.

Lemma has_id_eq (k : string) (t : Task) : has_id k t = true <-> id t = k.
Proof. unfold has_id. apply String.eqb_eq. Qed.

Lemma task_eta (t : Task) :
  mkTask (id t) (title t) (isCompleted t) (sortOrder t) = t.
Proof. now destruct t. Qed.

Lemma state_eta (st : State) : mkState (tasks st) (undoStack st) = st.
Proof. now destruct st. Qed.

Lemma undo_of_push (ts : list Task) (log : list Action) (a : Action) :
  undo (mkState ts (log ++ [a])) =
  match a with
  | ADD_TASK task =>
      mkState (filter (fun t => negb (has_id (id task) t)) ts) log
  | DELETE_TASK task index => mkState (splice_in index task ts) log
  | TOGGLE_COMPLETE taskId wasCompleted =>
      mkState
        (map (fun t =>
                if has_id taskId t
                then mkTask (id t) (title t) wasCompleted (sortOrder t)
                else t) ts)
        log
  | UPDATE_TASK taskId oldTitle _ =>
      mkState
        (map (fun t =>
                if has_id taskId t
                then mkTask (id t) oldTitle (isCompleted t) (sortOrder t)
                else t) ts)
        log
  end.
Proof.
  unfold undo; simpl.
  rewrite last_elem_push, slice_init_push, length_app; simpl.
  destruct (Z.eqb_spec (Z.of_nat (length log + 1)) 0); [lia|reflexivity].
Qed.

Lemma filter_fresh (k : string) (ts : list Task) :
  ~ In k (map id ts) -> filter (fun t => negb (has_id k t)) ts = ts.
Proof.
  induction ts as [|t ts IH]; simpl; [reflexivity|].
  intros H. destruct (has_id k t) eqn:E; simpl.
  - apply has_id_eq in E. tauto.
  - f_equal. apply IH. tauto.
Qed.

Lemma find_unique (k : string) (ts : list Task) (task t : Task) :
  NoDup (map id ts) -> find_first (has_id k) ts = Some task ->
  In t ts -> has_id k t = true -> t = task.
Proof.
  intros Hnd Hf Ht Hk. apply find_first_In in Hf as [Hin Hid].
  apply has_id_eq in Hk, Hid.
  apply (NoDup_map_In_inj id ts); auto. congruence.
Qed.

(** Putting the deleted task back at the index recorded gives the array
    the delete started from. *)
Lemma splice_in_deleted (k : string) (ts : list Task) (task : Task) :
  NoDup (map id ts) -> find_first (has_id k) ts = Some task ->
  splice_in (findIndex (has_id k) ts) task
            (filter (fun t => negb (has_id k t)) ts) = ts.
Proof.
  unfold find_first, splice_in.
  induction ts as [|x ts IH]; simpl; [discriminate|].
  intros Hnd Hf. inversion Hnd as [|? ? Hn Hd]; subst.
  destruct (has_id k x) eqn:E; simpl.
  - injection Hf as ->. apply has_id_eq in E.
    rewrite filter_fresh by (now rewrite <- E). reflexivity.
  - specialize (IH Hd Hf).
    assert (Hi : 0 <= findIndex (has_id k) ts).
    { pose proof (find_first_index _ _ _ Hf) as Hat. unfold at_index in Hat.
      destruct (Z.ltb_spec (findIndex (has_id k) ts) 0); [discriminate|lia]. }
    destruct (Z.ltb_spec (findIndex (has_id k) ts) 0) as [?|_]; [lia|].
    replace (Z.to_nat (findIndex (has_id k) ts + 1))
      with (S (Z.to_nat (findIndex (has_id k) ts))) by lia.
    simpl. now rewrite IH.
Qed.

Section UndoInverse.
Variable st : State.
Hypothesis ids_unique : NoDup (map id (tasks st)).

(** In this revision a task has no timestamp and [undo] gives back the very
    state the action started from. *)
Lemma undo_addTask (ti : jsstring) (now : Z) :
  trim ti <> [] -> ~ In (toString now) (map id (tasks st)) ->
  undo (addTask ti now st) = st.
Proof.
  intros Ht Hk. unfold addTask.
  destruct (trim ti) as [|c r] eqn:E; [contradiction|]. cbn [truthy].
  rewrite undo_of_push. cbn [id].
  rewrite filter_app. simpl. unfold has_id at 2. simpl.
  rewrite String.eqb_refl. simpl.
  rewrite filter_fresh by assumption.
  rewrite app_nil_r. apply state_eta.
Qed.

Lemma undo_toggleComplete (k : string) (task : Task) :
  find_first (has_id k) (tasks st) = Some task ->
  undo (toggleComplete k st) = st.
Proof.
  intros Hf. unfold toggleComplete. rewrite Hf, undo_of_push.
  rewrite map_map. rewrite <- (state_eta st) at 3. f_equal.
  rewrite <- (map_id (tasks st)) at 2. apply map_ext_in. intros t Ht.
  destruct (has_id k t) eqn:E; simpl.
  - unfold has_id in *. simpl. rewrite E.
    rewrite <- (find_unique k (tasks st) task t ids_unique Hf Ht E).
    apply task_eta.
  - now rewrite E.
Qed.

Lemma undo_updateTaskTitle (k : string) (ti : jsstring) (task : Task) :
  find_first (has_id k) (tasks st) = Some task ->
  trim ti <> [] -> ti <> title task ->
  undo (updateTaskTitle k ti st) = st.
Proof.
  intros Hf Ht Hne. unfold updateTaskTitle. rewrite Hf.
  destruct (trim ti) as [|c r] eqn:Etrim; [contradiction|]. cbn [truthy].
  unfold JsString.eqb.
  destruct (list_eq_dec N.eq_dec ti (title task)); [contradiction|].
  cbn [andb negb]. rewrite undo_of_push.
  rewrite map_map. rewrite <- (state_eta st) at 3. f_equal.
  rewrite <- (map_id (tasks st)) at 2. apply map_ext_in. intros t Hin.
  destruct (has_id k t) eqn:E; simpl.
  - unfold has_id in *. simpl. rewrite E.
    rewrite <- (find_unique k (tasks st) task t ids_unique Hf Hin E).
    apply task_eta.
  - now rewrite E.
Qed.

Lemma undo_deleteTask (k : string) (task : Task) :
  find_first (has_id k) (tasks st) = Some task ->
  undo (deleteTask k st) = st.
Proof.
  intros Hf. unfold deleteTask.
  rewrite (find_first_index _ _ _ Hf), undo_of_push.
  rewrite splice_in_deleted by assumption. apply state_eta.
Qed.

End UndoInverse.

(** The id of a task is the clock reading at its creation: two adds that
    read the same millisecond give two tasks one id. *)
Lemma same_clock_same_id (ti : jsstring) (now : Z) (st : State) :
  trim ti <> [] ->
  ~ NoDup (map id (tasks (addTask ti now (addTask ti now st)))).
Proof.
  intros Ht. unfold addTask.
  destruct (trim ti) as [|c r] eqn:E; [contradiction|]. cbn [truthy tasks].
  rewrite !map_app. simpl. rewrite <- app_assoc. simpl.
  intros H. apply NoDup_remove_2 in H. apply H.
  apply in_or_app. right. now left.
Qed.

End LocalFacts.

(* ================================================================= *)
(** ** More facts about the stable sort and about [trim] *)

Module JsSortFacts.

Import JsString JsArray JsArrayFacts.

Section Extremes.
Context {A : Type}.
Variable cmp : A -> A -> Z.
Variable key : A -> Z.
Hypothesis cmp_key : forall a b, cmp a b <= 0 <-> key a <= key b.

Lemma insert_sorted_snoc (a x : A) (s : list A) :
  key a <= key x ->
  insert_sorted cmp a (s ++ [x]) = insert_sorted cmp a s ++ [x].
Proof.
  intros Hax. induction s as [|y s IH]; simpl.
  - apply cmp_key in Hax.
    destruct (Z.leb_spec (cmp a x) 0); [reflexivity|lia].
  - destruct (cmp a y <=? 0); [reflexivity|]. now rewrite IH.
Qed.

(** An element that is last in the array and has a key no smaller than the
    others is last in the sorted array. *)
Lemma sort_snoc_max (l : list A) (x : A) :
  (forall y, In y l -> key y <= key x) ->
  sort cmp (l ++ [x]) = sort cmp l ++ [x].
Proof.
  induction l as [|a l IH]; intros H; simpl; [reflexivity|].
  rewrite IH by (intros y Hy; apply H; now right).
  apply insert_sorted_snoc. apply H. now left.
Qed.

Lemma insert_sorted_below (x : A) (s : list A) :
  (forall y, In y s -> key x <= key y) ->
  insert_sorted cmp x s = x :: s.
Proof.
  destruct s as [|y s]; simpl; [reflexivity|].
  intros H. assert (Hxy : cmp x y <= 0) by (apply cmp_key, H; now left).
  destruct (Z.leb_spec (cmp x y) 0); [reflexivity|lia].
Qed.

(** An element whose key is below every other key comes first in the
    sorted array, wherever it stood, and the rest is sorted as without
    it. *)
Lemma sort_min_front (l1 l2 : list A) (x : A) :
  (forall y, In y l1 -> key x < key y) ->
  (forall y, In y l2 -> key x <= key y) ->
  sort cmp (l1 ++ x :: l2) = x :: sort cmp (l1 ++ l2).
Proof.
  induction l1 as [|a l1 IH]; intros H1 H2; simpl.
  - apply insert_sorted_below. intros y Hy. apply H2.
    eapply Permutation_in; [apply sort_perm|exact Hy].
  - rewrite IH by (auto; intros y Hy; apply H1; now right).
    simpl.
    assert (Hxa : key x < key a) by (apply H1; now left).
    destruct (Z.leb_spec (cmp a x) 0) as [Hle|_]; [|reflexivity].
    apply cmp_key in Hle. lia.
Qed.

End Extremes.

(** [trim] leaves nothing exactly when every code unit is white space. *)
Lemma trimStart_nil_iff (s : jsstring) :
  trimStart s = [] <-> forallb is_white_space s = true.
Proof.
  induction s as [|c s IH]; simpl; [tauto|].
  destruct (is_white_space c); simpl; [exact IH|].
  split; discriminate.
Qed.

Lemma forallb_rev {A : Type} (p : A -> bool) (l : list A) :
  forallb p (rev l) = forallb p l.
Proof.
  induction l as [|x l IH]; simpl; [reflexivity|].
  rewrite forallb_app, IH. simpl. rewrite andb_true_r. apply andb_comm.
Qed.

Lemma trimStart_keeps_black (s : jsstring) :
  forallb is_white_space s = false ->
  forallb is_white_space (trimStart s) = false.
Proof.
  induction s as [|c s IH]; simpl; [discriminate|].
  destruct (is_white_space c) eqn:E; simpl; [exact IH|].
  intros _. now rewrite E.
Qed.

Lemma trim_nil_iff (s : jsstring) :
  trim s = [] <-> forallb is_white_space s = true.
Proof.
  unfold trim, trimEnd. split.
  - intros H. destruct (forallb is_white_space s) eqn:E; [reflexivity|].
    apply trimStart_keeps_black in E.
    rewrite <- forallb_rev in E. apply trimStart_keeps_black in E.
    apply (f_equal (@rev code_unit)) in H. rewrite rev_involutive in H.
    simpl in H. rewrite H in E. discriminate.
  - intros H. apply trimStart_nil_iff in H. now rewrite H.
Qed.

End JsSortFacts.

(* ================================================================= *)
(** ** Further properties of the persisted revision *)

Module SyncedExtra.

Import JsString JsArray JsArrayFacts JsSortFacts Synced SyncedRuns SyncedFacts.

Local Open Scope string_scope.
Local Open Scope list_scope.
Local Open Scope Z_scope.

(** *** Titles *)


Lemma pushed_is_not_same (st : State) (ts : list Task) (a : Action) :
  mkState ts (undoStack st ++ [a]) <> st.
Proof.
  intros H. apply (f_equal undoStack) in H. simpl in H.
  now apply app_one_neq in H.
Qed.

(** X2. [addTask] ignores the text of the field exactly when every code
    unit of it is white space (the empty text included); and for a task of
    the collection [updateTaskTitle] is [deleteTask] exactly in that
    case. *)
Theorem blank_is_all_white_space (st : State) (ti : jsstring) (k : string)
    (now : Z) :
  (addTask ti k now st = st <-> forallb is_white_space ti = true) /\
  (In k (map id (tasks st)) ->
   (updateTaskTitle k ti now st = deleteTask k st
    <-> forallb is_white_space ti = true)).
Proof.
  split.
  - rewrite <- trim_nil_iff. split.
    + intros H. destruct (trim ti) as [|c r] eqn:E; [reflexivity|].
      exfalso. revert H. unfold addTask. rewrite E. cbn [truthy].
      apply pushed_is_not_same.
    + apply addTask_blank.
  - intros Hk. destruct (known_find _ _ Hk) as [task Hf].
    rewrite <- trim_nil_iff. split.
    + intros H. destruct (trim ti) as [|c r] eqn:E; [reflexivity|].
      exfalso. revert H. rewrite (deleteTask_known _ _ _ Hf).
      destruct (list_eq_dec N.eq_dec ti (title task)) as [He|Hne].
      * rewrite (updateTaskTitle_same _ _ _ _ task) by
          (auto; rewrite E; discriminate).
        intros H. symmetry in H. revert H. apply pushed_is_not_same.
      * rewrite (updateTaskTitle_changed _ _ _ _ task) by
          (auto; rewrite E; discriminate).
        intros H. apply (f_equal undoStack) in H. simpl in H.
        apply app_inj_tail in H as [_ H]. discriminate.
    + apply updateTaskTitle_blank.
Qed.

Lemma blank_is_all_white_space_witness :
  updateTaskTitle "a" (js "  ") 2 one_task = deleteTask "a" one_task
  <-> forallb is_white_space (js "  ") = true.
Proof.
  apply (blank_is_all_white_space one_task (js "  ") "a" 2).
  vm_compute. now left.
Defined.

(** *** The undo log as a stack *)

Lemma run_app (es1 es2 : list Event) (st : State) :
  run (es1 ++ es2) st = run es2 (run es1 st).
Proof. unfold run. apply fold_left_app. Qed.

Lemma removelast_length {A : Type} (l : list A) :
  length (removelast l) = (length l - 1)%nat.
Proof.
  destruct l as [|a l]; [reflexivity|].
  destruct (exists_last (l := a :: l)) as (l' & x & ->); [discriminate|].
  rewrite removelast_last, length_app. simpl. lia.
Qed.

(** X3. Undos pop and push nothing: after n of them the log is the former
    log without its last n entries, and on an empty log they change
    nothing at all. *)
Theorem undos_pop (nows : list Z) (st : State) :
  undoStack (run (undos nows) st) =
    firstn (length (undoStack st) - length nows) (undoStack st) /\
  (undoStack st = [] -> run (undos nows) st = st).
Proof.
  split.
  - revert st. induction nows as [|n nows IH]; intros st; simpl.
    + now rewrite Nat.sub_0_r, firstn_all.
    + change (run (undos (n :: nows)) st) with (run (undos nows) (undo n st)).
      rewrite IH, undo_pops, removelast_length.
      rewrite removelast_firstn_len, firstn_firstn.
      f_equal. lia.
  - revert st. induction nows as [|n nows IH]; intros st E; [reflexivity|].
    change (run (undos (n :: nows)) st) with (run (undos nows) (undo n st)).
    rewrite undo_empty by exact E. now apply IH.
Qed.

Lemma undos_pop_witness :
  run (undos [5; 6; 7]) initial = initial.
Proof. apply (undos_pop [5; 6; 7] initial). reflexivity. Defined.

(** *** toggle *)

Lemma find_at_id (k : string) (f : Task -> Task) (ts : list Task) (task : Task) :
  (forall t, id (f t) = id t) ->
  find_first (has_id k) ts = Some task ->
  find_first (has_id k) (at_id k f ts) = Some (f task).
Proof.
  intros Hf. unfold find_first.
  induction ts as [|x ts IH]; simpl; [discriminate|].
  destruct (has_id k x) eqn:E.
  - intros [= ->]. unfold has_id in *. now rewrite Hf, E.
  - rewrite E. exact IH.
Qed.

(** X4. Toggling a task twice gives every task its former fields back,
    except that [updatedAt] of the task is the time of the second toggle;
    the log holds two more entries, the former flag and then its
    negation. *)
Theorem toggle_twice (st : State) (k : string) (now1 now2 : Z) (task : Task) :
  NoDup (map id (tasks st)) ->
  find_first (has_id k) (tasks st) = Some task ->
  toggleComplete k now2 (toggleComplete k now1 st) =
  mkState (at_id k (touch now2) (tasks st))
          (undoStack st ++ [TOGGLE_COMPLETE k (isCompleted task);
                            TOGGLE_COMPLETE k (negb (isCompleted task))]).
Proof.
  intros Hnd Hf.
  rewrite (toggleComplete_known _ _ _ _ Hf).
  rewrite (toggleComplete_known _ _ _
             (set_completed (negb (isCompleted task)) now1 task))
    by (cbn [tasks]; now apply find_at_id).
  cbn [tasks undoStack isCompleted set_completed].
  rewrite at_id_at_id by reflexivity. rewrite <- app_assoc. f_equal.
  apply at_id_ext_in. intros t Ht Htk.
  apply find_known in Hf as (Hin & Hid & _).
  assert (t = task) as ->
    by (apply (unique_by_id (tasks st));
        [exact Hnd|assumption|assumption|congruence]).
  unfold touch; simpl. now rewrite negb_involutive.
Qed.

Lemma toggle_twice_witness :
  toggleComplete "a" 6 (toggleComplete "a" 5 two_tasks) =
  mkState (at_id "a" (touch 6) (tasks two_tasks))
          (undoStack two_tasks ++ [TOGGLE_COMPLETE "a" false;
                                   TOGGLE_COMPLETE "a" true]).
Proof.
  apply (toggle_twice two_tasks "a" 5 6
           (mkTask "a" (js "A") false 0 (Some 1) (Some 1) None)).
  - apply two_tasks_NoDup.
  - reflexivity.
Defined.

(** *** The views after a toggle, an add and a reorder *)

Lemma completed_at_id_split (k : string) (f : Task -> Task) (ts : list Task)
    (task : Task) :
  NoDup (ids ts) -> In task ts -> id task = k ->
  isCompleted task = false -> isCompleted (f task) = true ->
  exists l1 l2,
    filter (fun t => isCompleted t) ts = l1 ++ l2 /\
    filter (fun t => isCompleted t) (at_id k f ts) = l1 ++ f task :: l2.
Proof.
  intros Hnd Hin Hid Hc Hfc.
  apply in_split in Hin as (ts1 & ts2 & ->).
  unfold ids in Hnd. rewrite map_app in Hnd. simpl in Hnd.
  pose proof (NoDup_remove_2 _ _ _ Hnd) as Hfresh.
  rewrite in_app_iff in Hfresh.
  exists (filter (fun t => isCompleted t) ts1),
         (filter (fun t => isCompleted t) ts2).
  unfold at_id. rewrite map_app, !filter_app. simpl.
  rewrite (proj2 (has_id_true k task) Hid), Hc, Hfc.
  fold (at_id k f ts1) (at_id k f ts2).
  rewrite !at_id_fresh by (unfold ids; rewrite <- Hid; tauto).
  split; reflexivity.
Qed.

(** X5. Most recently completed first: when an active task is toggled at a
    time later than the [updatedAt] of every completed task, it becomes the
    head of the completed view and the rest of that view is as before. *)
Theorem completed_task_goes_first (st : State) (k : string) (now : Z)
    (task : Task) :
  NoDup (map id (tasks st)) ->
  find_first (has_id k) (tasks st) = Some task ->
  isCompleted task = false ->
  (forall t, In t (tasks st) -> isCompleted t = true ->
             or0 (updatedAt t) < now) ->
  completedTasks (tasks (toggleComplete k now st)) =
  set_completed true now task :: completedTasks (tasks st).
Proof.
  intros Hnd Hf Hc Hnow.
  rewrite (toggleComplete_known _ _ _ _ Hf). cbn [tasks]. rewrite Hc.
  apply find_known in Hf as (Hin & Hid & _).
  destruct (completed_at_id_split k (set_completed (negb false) now)
              (tasks st) task Hnd Hin Hid Hc eq_refl)
    as (l1 & l2 & E1 & E2).
  unfold completedTasks. rewrite E1, E2.
  assert (Hlate : forall y, In y (l1 ++ l2) ->
                            - or0 (updatedAt (set_completed true now task))
                            < - or0 (updatedAt y)).
  { intros y Hy. rewrite <- E1 in Hy. apply filter_In in Hy as [Hy Hyc].
    specialize (Hnow y Hy Hyc). simpl. lia. }
  apply (sort_min_front by_recency (fun t => - or0 (updatedAt t))
                        by_recency_key).
  - intros y Hy. apply Hlate, in_or_app. now left.
  - intros y Hy. apply Z.lt_le_incl, Hlate, in_or_app. now right.
Qed.

Lemma completed_task_goes_first_witness :
  completedTasks (tasks (toggleComplete "b" 9 one_done_one_active)) =
  set_completed true 9 (mkTask "b" (js "B") false 1 (Some 3) (Some 3) None)
  :: completedTasks (tasks one_done_one_active).
Proof.
  apply (completed_task_goes_first one_done_one_active "b" 9).
  - apply reachable_NoDup. eexists; reflexivity.
  - reflexivity.
  - reflexivity.
  - intros t [<-|[<-|[]]]; simpl; intros H; [lia|discriminate].
Defined.

(** X6. A task added while no active task has a [sortOrder] above the size
    of the collection is last in the active view, the others keeping their
    order. *)
Theorem added_task_goes_last (st : State) (ti : jsstring) (k : string)
    (now : Z) :
  trim ti <> [] -> ~ In k (map id (tasks st)) ->
  (forall t, In t (tasks st) -> isCompleted t = false ->
             sortOrder t <= Z.of_nat (length (tasks st))) ->
  activeTasks (tasks (addTask ti k now st)) =
  activeTasks (tasks st)
  ++ [mkTask k ti false (Z.of_nat (length (tasks st))) (Some now) (Some now)
             None].
Proof.
  intros Hti Hk Hmax.
  rewrite addTask_fresh by assumption. cbn [tasks].
  rewrite !activeTasks_eq, filter_app. simpl.
  apply (sort_snoc_max by_sortOrder sortOrder by_sortOrder_key).
  intros y Hy. apply filter_In in Hy as [Hy Hya].
  apply Hmax; [assumption|].
  unfold is_active in Hya. now apply negb_true_iff.
Qed.

Lemma added_task_goes_last_witness :
  activeTasks (tasks (addTask (js "C") "c" 9 one_done_one_active)) =
  activeTasks (tasks one_done_one_active)
  ++ [mkTask "c" (js "C") false 2 (Some 9) (Some 9) None].
Proof.
  apply (added_task_goes_last one_done_one_active (js "C") "c" 9).
  - vm_compute; discriminate.
  - vm_compute. intros [H|[H|[]]]; discriminate.
  - intros t [<-|[<-|[]]]; simpl; intros H; [discriminate|lia].
Defined.

Lemma renumber_frame (ks : list string) (i now : Z) (t : Task) :
  title (renumber ks i now t) = title t /\
  createdAt (renumber ks i now t) = createdAt t /\
  userId (renumber ks i now t) = userId t.
Proof.
  revert i t. induction ks as [|k ks IH]; simpl; intros i t; [auto|].
  destruct (IH (i + 1) (if has_id k t then set_sortOrder i now t else t))
    as (H1 & H2 & H3).
  rewrite H1, H2, H3. now destruct (has_id k t).
Qed.

Lemma completed_not_among_active (ts : list Task) (t : Task) :
  NoDup (ids ts) -> In t ts -> isCompleted t = true ->
  ~ In (id t) (ids (filter is_active ts)).
Proof.
  intros Hnd Hin Hc H. unfold ids in H. apply in_map_iff in H as [u [Hid Hu]].
  apply filter_In in Hu as [Hu Hua].
  assert (u = t) by (apply (unique_by_id ts); auto).
  subst u. unfold is_active in Hua. rewrite Hc in Hua. discriminate.
Qed.

(** X7. A reorder of the active list writes [sortOrder] and [updatedAt] of
    active tasks and nothing else: every task keeps its id, title, flag,
    [createdAt] and [userId], each completed task is left as it is, and the
    completed view is the same list as before. *)
Theorem handleReorder_frame (st : State) (newOrder : list Task) (now : Z) :
  NoDup (map id (tasks st)) ->
  Permutation (map id newOrder) (map id (activeTasks (tasks st))) ->
  Forall2
    (fun t t' =>
       id t' = id t /\ title t' = title t /\
       isCompleted t' = isCompleted t /\ createdAt t' = createdAt t /\
       userId t' = userId t /\ (isCompleted t = true -> t' = t))
    (tasks st) (tasks (handleReorder newOrder now st)) /\
  completedTasks (tasks (handleReorder newOrder now st)) =
  completedTasks (tasks st).
Proof.
  intros Hnd Hperm.
  assert (Hsub : forall k, In k (ids newOrder) -> In k (ids (tasks st))).
  { intros k Hk. apply activeTasks_ids.
    eapply Permutation_in; [exact Hperm|exact Hk]. }
  assert (Hkeep : forall t, In t (tasks st) -> isCompleted t = true ->
                            renumber (ids newOrder) 0 now t = t).
  { intros t Ht Hc. apply renumber_other. intros Hin.
    apply (completed_not_among_active (tasks st) t Hnd Ht Hc).
    eapply Permutation_in; [|exact Hin].
    unfold ids. rewrite Hperm. apply Permutation_map, activeTasks_perm. }
  unfold handleReorder, mapi. cbn [tasks].
  rewrite transact_reorder by exact Hsub. split.
  - clear Hperm Hsub Hnd. revert Hkeep. generalize (tasks st) as ts.
    induction ts as [|x ts IH]; intros Hkeep; simpl; constructor.
    + destruct (renumber_frame (ids newOrder) 0 now x) as (H1 & H2 & H3).
      rewrite renumber_id, renumber_isCompleted.
      repeat split; auto. intros Hc. apply Hkeep; [now left|assumption].
    + apply IH. intros t Ht. apply Hkeep. now right.
  - unfold completedTasks. f_equal. rewrite filter_map_swap.
    rewrite (filter_ext
               (fun a => isCompleted (renumber (ids newOrder) 0 now a))
               (fun a => isCompleted a))
      by (intros a; apply renumber_isCompleted).
    rewrite <- (map_id (filter (fun a => isCompleted a) (tasks st))) at 2.
    apply map_ext_in. intros t Ht. apply filter_In in Ht as [Ht Hc].
    now apply Hkeep.
Qed.

Lemma handleReorder_frame_witness :
  completedTasks (tasks
    (handleReorder (activeTasks (tasks one_done_one_active)) 9
                   one_done_one_active))
  = completedTasks (tasks one_done_one_active).
Proof.
  apply (handleReorder_frame one_done_one_active
           (activeTasks (tasks one_done_one_active)) 9).
  - apply reachable_NoDup. eexists; reflexivity.
  - reflexivity.
Defined.

(** *** The entry that undo reverts *)

(** X8. In a run where every add draws an unused id and every reorder
    submits tasks of the collection, the task that the newest log entry
    adds, toggles or renames is in the collection: the update or delete of
    [undo] finds its entity. *)
Theorem undo_entry_names_a_task (st : State) (log : list Action) (a : Action) :
  wf_reachable st -> undoStack st = log ++ [a] ->
  match a with
  | ADD_TASK task => In (id task) (map id (tasks st))
  | TOGGLE_COMPLETE k _ | UPDATE_TASK k _ _ => In k (map id (tasks st))
  | DELETE_TASK _ _ => True
  end.
Proof.
  intros Hr E. apply wf_reachable_replayable in Hr.
  unfold replayable in Hr. rewrite E, rev_app_distr in Hr. simpl in Hr.
  destruct a; simpl in Hr; tauto.
Qed.

Lemma undo_entry_names_a_task_witness :
  In "a" (map id (tasks one_done)).
Proof.
  apply (undo_entry_names_a_task one_done
           [ADD_TASK (mkTask "a" (js "A") false 0 (Some 1) (Some 1) None)]
           (TOGGLE_COMPLETE "a" false)).
  - apply (wf_step _ (EvToggle "a" 2)); [|exact I].
    apply (wf_step _ (EvAdd (js "A") "a" 1)); [apply wf_initial|].
    intros [].
  - reflexivity.
Defined.

(** *** Undoing a whole run *)

Lemma unstamped_idem (t : Task) : unstamped (unstamped t) = unstamped t.
Proof. reflexivity. Qed.

Lemma ids_unstamped (ts : list Task) : ids (map unstamped ts) = ids ts.
Proof. unfold ids. rewrite map_map. reflexivity. Qed.

Lemma same_content_refl (ts : list Task) : same_content ts ts.
Proof. unfold same_content. reflexivity. Qed.

Lemma same_content_trans (ts1 ts2 ts3 : list Task) :
  same_content ts1 ts2 -> same_content ts2 ts3 -> same_content ts1 ts3.
Proof. unfold same_content. intros H1 H2. now rewrite H1. Qed.

Lemma same_content_perm (ts ts' : list Task) :
  Permutation ts ts' -> same_content ts ts'.
Proof. intros H. now apply Permutation_map. Qed.

Lemma same_content_ids (ts ts' : list Task) (k : string) :
  same_content ts ts' -> In k (ids ts) <-> In k (ids ts').
Proof.
  intros H. rewrite <- (ids_unstamped ts), <- (ids_unstamped ts').
  unfold ids. split; apply Permutation_in; [|symmetry]; now apply Permutation_map.
Qed.

Lemma same_content_filter (k : string) (ts ts' : list Task) :
  same_content ts ts' ->
  same_content (filter (fun t => negb (has_id k t)) ts)
               (filter (fun t => negb (has_id k t)) ts').
Proof.
  unfold same_content. intros H.
  apply (Permutation_filter (fun t => negb (has_id k t))) in H.
  now rewrite !filter_map_swap in H.
Qed.

Lemma unstamped_at_id (k : string) (f g : Task -> Task) (ts : list Task) :
  (forall t, unstamped (f t) = unstamped (g (unstamped t))) ->
  map unstamped (at_id k f ts) =
  at_id k (fun u => unstamped (g u)) (map unstamped ts).
Proof.
  intros H. unfold at_id. rewrite !map_map. apply map_ext. intros t.
  change (has_id k (unstamped t)) with (has_id k t).
  destruct (has_id k t); [apply H|reflexivity].
Qed.

Lemma same_content_at_id (k : string) (f g : Task -> Task)
    (ts ts' : list Task) :
  (forall t t', unstamped t = unstamped t' ->
                unstamped (f t) = unstamped (g t')) ->
  same_content ts ts' -> same_content (at_id k f ts) (at_id k g ts').
Proof.
  intros H Hs. unfold same_content.
  rewrite (unstamped_at_id k f g) by (intros t; now apply H).
  rewrite (unstamped_at_id k g g).
  - now apply Permutation_map.
  - intros t. transitivity (unstamped (f t)).
    + symmetry. now apply H.
    + now apply H.
Qed.

Lemma merge_unstamped (a a' : Attrs) (t t' : Task) :
  unstamped_attrs a = unstamped_attrs a' -> unstamped t = unstamped t' ->
  unstamped (merge a t) = unstamped (merge a' t').
Proof.
  destruct a, a', t, t'. unfold unstamped_attrs, unstamped, merge; simpl.
  intros [= -> -> -> -> ->] [= -> -> -> -> -> ->]. reflexivity.
Qed.

Lemma same_content_update (k : string) (a a' : Attrs) (ts ts' : list Task) :
  unstamped_attrs a = unstamped_attrs a' -> same_content ts ts' ->
  same_content (apply_step ts (tx_update k a))
               (apply_step ts' (tx_update k a')).
Proof.
  intros Ha Hs. simpl.
  destruct (existsb (has_id k) ts) eqn:E.
  - assert (E' : existsb (has_id k) ts' = true).
    { apply existsb_has_id. apply (same_content_ids ts ts' k Hs).
      now apply existsb_has_id. }
    rewrite E'.
    apply (same_content_at_id k (merge a) (merge a')); [|exact Hs].
    intros t t'. now apply merge_unstamped.
  - assert (E' : existsb (has_id k) ts' = false).
    { apply existsb_has_id_false. rewrite <- (same_content_ids ts ts' k Hs).
      now apply existsb_has_id_false. }
    rewrite E'. unfold entity_of.
    destruct a, a'. unfold unstamped_attrs in Ha. simpl in *.
    injection Ha as -> -> -> -> ->.
    destruct a_title1, a_isCompleted1, a_sortOrder1; try exact Hs.
    unfold same_content in *. rewrite !map_app.
    now apply Permutation_app.
Qed.

(** [undo] on two states with one log and the same content gives two
    states with one log and the same content, whatever the two clocks
    read. *)
Lemma undo_same_content (x y : State) (n n' : Z) :
  undoStack x = undoStack y -> same_content (tasks x) (tasks y) ->
  undoStack (undo n x) = undoStack (undo n' y) /\
  same_content (tasks (undo n x)) (tasks (undo n' y)).
Proof.
  intros El Hs.
  destruct (undoStack x) as [|a0 log0] eqn:E.
  { rewrite !undo_empty by congruence. split; congruence. }
  destruct (exists_last (l := a0 :: log0)) as (log & a & E');
    [discriminate|].
  rewrite <- (mkState_eta x), <- (mkState_eta y), <- El, E, E', !undo_pushed.
  cbn [tasks undoStack]. split; [reflexivity|].
  unfold transact.
  destruct a as [task|task idx|k w|k old new]; cbn [fold_left].
  - now apply same_content_filter.
  - now apply same_content_update.
  - now apply same_content_update.
  - now apply same_content_update.
Qed.

Lemma undo_after_add (st : State) (ti : jsstring) (k : string) (now now' : Z) :
  trim ti <> [] -> ~ In k (ids (tasks st)) ->
  undo now' (addTask ti k now st) = st.
Proof.
  intros Hti Hk.
  rewrite addTask_fresh by assumption. rewrite undo_pushed.
  unfold transact; simpl. rewrite filter_app; simpl.
  rewrite (proj2 (has_id_true k (newTask ti k now st)) eq_refl); simpl.
  rewrite filter_not_id_fresh by assumption.
  rewrite app_nil_r. apply mkState_eta.
Qed.

Lemma undo_after_patch (st : State) (k : string) (now' : Z) (task : Task)
    (f : Task -> Task) (a : Attrs) (entry : Action) :
  NoDup (ids (tasks st)) ->
  find_first (has_id k) (tasks st) = Some task ->
  (forall t, id (f t) = id t) ->
  merge a (f task) = touch now' task ->
  undo now' (mkState (at_id k f (tasks st)) (undoStack st ++ [entry])) =
    mkState (transact [tx_update k a] (at_id k f (tasks st))) (undoStack st) ->
  undo now' (mkState (at_id k f (tasks st)) (undoStack st ++ [entry])) =
  mkState (at_id k (touch now') (tasks st)) (undoStack st).
Proof.
  intros Hnd Hf Hid Hm ->.
  apply find_known in Hf as (Hin & Hk & Hknown).
  rewrite update_known by (now rewrite ids_at_id).
  rewrite at_id_at_id by exact Hid.
  f_equal. apply at_id_ext_in. intros t Ht Htk.
  assert (t = task) as ->
    by (apply (unique_by_id (tasks st));
        [exact Hnd|assumption|assumption|congruence]).
  exact Hm.
Qed.

Lemma touched_same_content (k : string) (now : Z) (ts : list Task) :
  same_content (at_id k (touch now) ts) ts.
Proof.
  unfold same_content, at_id. rewrite map_map.
  erewrite map_ext; [reflexivity|].
  intros t. now destruct (has_id k t).
Qed.

Lemma undo_after_delete (st : State) (k : string) (now' : Z) (task : Task) :
  NoDup (ids (tasks st)) ->
  find_first (has_id k) (tasks st) = Some task ->
  undoStack (undo now' (deleteTask k st)) = undoStack st /\
  same_content (tasks (undo now' (deleteTask k st))) (tasks st).
Proof.
  intros Hnd Hf.
  rewrite (deleteTask_known _ _ _ Hf), undo_pushed.
  apply find_known in Hf as (Hin & Hid & Hk).
  assert (Hgone : ~ In (id task)
                    (ids (filter (fun t => negb (has_id k t)) (tasks st)))).
  { rewrite Hid, ids_filter_other. tauto. }
  rewrite (update_fresh _ _ (touch now' task)) by (exact Hgone || reflexivity).
  cbn [tasks undoStack]. split; [reflexivity|].
  eapply same_content_trans; [|apply (touched_same_content k now')].
  apply same_content_perm. now apply restore_perm.
Qed.

(** One logged event and its undo. *)
Lemma logged_step_undone (st : State) (e : Event) (now' : Z) :
  NoDup (ids (tasks st)) -> logged e = true -> well_formed st e ->
  step st e = st \/
  ((exists a, undoStack (step st e) = undoStack st ++ [a]) /\
   undoStack (undo now' (step st e)) = undoStack st /\
   same_content (tasks (undo now' (step st e))) (tasks st)).
Proof.
  intros Hnd Hl Hwf.
  assert (Hdel : forall k,
    deleteTask k st = st \/
    ((exists a, undoStack (deleteTask k st) = undoStack st ++ [a]) /\
     undoStack (undo now' (deleteTask k st)) = undoStack st /\
     same_content (tasks (undo now' (deleteTask k st))) (tasks st))).
  { intros k.
    destruct (find_first (has_id k) (tasks st)) as [task|] eqn:Hf.
    - right. split; [|now apply (undo_after_delete st k now' task)].
      rewrite (deleteTask_known _ _ _ Hf). cbn [undoStack]. eauto.
    - left. unfold deleteTask. now rewrite (find_first_none_index _ _ Hf). }
  destruct e as [ti k now|k now|k|k ti now|o now|now];
    try discriminate; simpl in *.
  - destruct (trim ti) as [|c r] eqn:E; [left; now apply addTask_blank|].
    right. assert (Hti : trim ti <> []) by (rewrite E; discriminate).
    rewrite undo_after_add by assumption.
    rewrite addTask_fresh by assumption. cbn [undoStack].
    split; [eauto|]. split; [reflexivity|apply same_content_refl].
  - destruct (find_first (has_id k) (tasks st)) as [task|] eqn:Hf.
    2:{ left. unfold toggleComplete. now rewrite Hf. }
    right. rewrite (toggleComplete_known _ _ _ _ Hf).
    split; [cbn [undoStack]; eauto|].
    rewrite (undo_after_patch st k now' task _
               (mkAttrs None (Some (isCompleted task)) None None (Some now')
                        None));
      auto; [|apply undo_pushed].
    cbn [tasks undoStack]. split; [reflexivity|apply touched_same_content].
  - apply Hdel.
  - destruct (find_first (has_id k) (tasks st)) as [task|] eqn:Hf.
    2:{ left. unfold updateTaskTitle. now rewrite Hf. }
    destruct (trim ti) as [|c r] eqn:E.
    { rewrite updateTaskTitle_blank by exact E. apply Hdel. }
    assert (Hti : trim ti <> []) by (rewrite E; discriminate).
    destruct (list_eq_dec N.eq_dec ti (title task)) as [He|Hne].
    { left. now apply (updateTaskTitle_same _ _ _ _ task). }
    right. rewrite (updateTaskTitle_changed _ _ _ _ task) by auto.
    split; [cbn [undoStack]; eauto|].
    rewrite (undo_after_patch st k now' task _
               (mkAttrs (Some (title task)) None None None (Some now') None));
      auto; [|apply undo_pushed].
    cbn [tasks undoStack]. split; [reflexivity|apply touched_same_content].
Qed.

Lemma admissible_NoDup (es : list Event) (st : State) :
  NoDup (ids (tasks st)) -> NoDup (ids (tasks (run es st))).
Proof. apply run_NoDup. Qed.

Lemma admissible_log_grows (es : list Event) (st : State) :
  NoDup (ids (tasks st)) -> admissible st es ->
  (length (undoStack st) <= length (undoStack (run es st)))%nat.
Proof.
  revert st. induction es as [|e es IH]; intros st Hnd Ha; simpl; [lia|].
  destruct Ha as (Hl & Hwf & Ha).
  specialize (IH (step st e) (step_NoDup st e Hnd) Ha).
  change (fold_left step es (step st e)) with (run es (step st e)).
  destruct (logged_step_undone st e 0 Hnd Hl Hwf) as [E|[[a E] _]].
  - rewrite E in IH |- *. exact IH.
  - rewrite E, length_app in IH. simpl in IH. lia.
Qed.

Lemma undos_app (l1 l2 : list Z) : undos (l1 ++ l2) = undos l1 ++ undos l2.
Proof. apply map_app. Qed.

(** X9. Undo pressed once for every entry that a run of adds, toggles,
    deletes and renames has pushed brings back the former undo log and the
    former collection up to [updatedAt] and to the order of the store:
    the same ids, each with its former title, flag, [sortOrder] and
    [createdAt]. *)
Theorem undo_all_restores_content (st : State) (es : list Event)
    (nows : list Z) :
  NoDup (map id (tasks st)) -> admissible st es ->
  length nows =
    (length (undoStack (run es st)) - length (undoStack st))%nat ->
  undoStack (run (undos nows) (run es st)) = undoStack st /\
  same_content (tasks (run (undos nows) (run es st))) (tasks st).
Proof.
  revert st nows.
  induction es as [|e es IH]; intros st nows Hnd Ha Hlen.
  - simpl in Hlen. rewrite Nat.sub_diag in Hlen.
    destruct nows; [|discriminate]. split; [reflexivity|].
    apply same_content_refl.
  - destruct Ha as (Hl & Hwf & Ha).
    change (run (e :: es) st) with (run es (step st e)) in *.
    pose proof (step_NoDup st e Hnd) as Hnd1.
    pose proof (admissible_log_grows es (step st e) Hnd1 Ha) as Hgrow.
    destruct (logged_step_undone st e 0 Hnd Hl Hwf) as [E|[[a E] _]].
    + rewrite E in *. now apply IH.
    + set (n1 := (length (undoStack (run es (step st e)))
                  - length (undoStack (step st e)))%nat) in *.
      rewrite <- (firstn_skipn n1 nows), undos_app, run_app.
      assert (Hn : (length nows = n1 + 1)%nat).
      { subst n1. rewrite E, length_app in *. simpl in *. lia. }
      destruct (IH (step st e) (firstn n1 nows) Hnd1 Ha) as [IHl IHc].
      { rewrite firstn_length_le by lia. reflexivity. }
      destruct (skipn n1 nows) as [|n rest] eqn:Es.
      { apply (f_equal (@length Z)) in Es. rewrite length_skipn in Es.
        simpl in Es. lia. }
      assert (rest = []) as ->.
      { apply (f_equal (@length Z)) in Es. rewrite length_skipn in Es.
        simpl in Es. destruct rest; [reflexivity|simpl in Es; lia]. }
      cbn [undos map run fold_left step].
      destruct (undo_same_content _ (step st e) n n IHl IHc) as [Hul Huc].
      destruct (logged_step_undone st e n Hnd Hl Hwf)
        as [E0|(_ & Hl0 & Hc0)].
      { exfalso. rewrite E0 in E. symmetry in E.
        now apply app_one_neq in E. }
      split; [congruence|].
      eapply same_content_trans; [exact Huc|exact Hc0].
Qed.

Lemma undo_all_restores_content_witness :
  undoStack (run (undos [7; 8; 9])
                 (run [EvToggle "a" 4; EvRename "b" (js "C") 5;
                       EvDelete "a"] two_tasks))
    = undoStack two_tasks /\
  same_content
    (tasks (run (undos [7; 8; 9])
                (run [EvToggle "a" 4; EvRename "b" (js "C") 5;
                      EvDelete "a"] two_tasks)))
    (tasks two_tasks).
Proof.
  apply (undo_all_restores_content two_tasks
           [EvToggle "a" 4; EvRename "b" (js "C") 5; EvDelete "a"]
           [7; 8; 9]).
  - apply two_tasks_NoDup.
  - simpl. tauto.
  - reflexivity.
Defined.

End SyncedExtra.

(* ================================================================= *)
(** ** Further properties of the React-state revision and of the
    revision without undo log *)

Module LocalExtra.

Import JsString JsArray JsArrayFacts Local LocalRuns LocalFacts.

Local Open Scope string_scope.
Local Open Scope list_scope.
Local Open Scope Z_scope.

(** *** One action and its undo *)

(** X10. In the React-state revision [undo] is an exact inverse of each
    logged action: after an add with a new id, and, with unique ids, after
    a toggle, a rename or a delete of a task of the collection, [undo]
    gives back the state the action started from; the deleted task is
    spliced in at the index it had. *)
Theorem undo_is_exact_inverse (st : State) :
  NoDup (map id (tasks st)) ->
  (forall ti now,
     trim ti <> [] -> ~ In (toString now) (map id (tasks st)) ->
     undo (addTask ti now st) = st) /\
  (forall k, In k (map id (tasks st)) -> undo (toggleComplete k st) = st) /\
  (forall k ti task,
     find_first (has_id k) (tasks st) = Some task ->
     trim ti <> [] -> ti <> title task ->
     undo (updateTaskTitle k ti st) = st) /\
  (forall k, In k (map id (tasks st)) -> undo (deleteTask k st) = st).
Proof.
  intros Hnd.
  assert (Hfind : forall k, In k (map id (tasks st)) ->
                            exists task, find_first (has_id k) (tasks st)
                                         = Some task).
  { intros k Hk. apply find_first_some_iff, existsb_exists.
    apply in_map_iff in Hk as [t [Hid Ht]]. exists t. split; [assumption|].
    now apply has_id_eq. }
  split; [|split; [|split]].
  - intros ti now. apply undo_addTask.
  - intros k Hk. destruct (Hfind k Hk) as [task Hf].
    now apply (undo_toggleComplete st Hnd k task).
  - intros k ti task. now apply undo_updateTaskTitle.
  - intros k Hk. destruct (Hfind k Hk) as [task Hf].
    now apply (undo_deleteTask st Hnd k task).
Qed.

Lemma two_local_NoDup : NoDup (map id (tasks two_local)).
Proof.
  vm_compute. constructor; [intros [H|[]]; discriminate|].
  constructor; [intros []|constructor].
Defined.

Lemma undo_is_exact_inverse_witness :
  undo (addTask (js "C") 3 two_local) = two_local /\
  undo (toggleComplete "1" two_local) = two_local /\
  undo (updateTaskTitle "2" (js "C") two_local) = two_local /\
  undo (deleteTask "1" two_local) = two_local.
Proof.
  destruct (undo_is_exact_inverse two_local two_local_NoDup)
    as (Ha & Ht & Hr & Hd).
  split; [|split; [|split]].
  - apply Ha; [vm_compute; discriminate|].
    vm_compute. intros [H|[H|[]]]; discriminate.
  - apply Ht. vm_compute. now left.
  - apply (Hr "2" (js "C") (mkTask "2" (js "B") false 1));
      [reflexivity|vm_compute; discriminate|vm_compute; discriminate].
  - apply Hd. vm_compute. now left.
Defined.

(** *** A whole run and its undos *)

Lemma map_ids_same (f : Task -> Task) (ts : list Task) :
  (forall t, id (f t) = id t) -> map id (map f ts) = map id ts.
Proof. intros H. rewrite map_map. now apply map_ext. Qed.

Lemma NoDup_filter_ids (p : Task -> bool) (ts : list Task) :
  NoDup (map id ts) -> NoDup (map id (filter p ts)).
Proof.
  induction ts as [|t ts IH]; simpl; [auto|].
  intros H. inversion H as [|? ? Hn Hd]; subst.
  destruct (p t); simpl; auto.
  constructor; auto. intros Hin. apply Hn.
  apply in_map_iff in Hin as [u [Hu Hf]]. apply filter_In in Hf as [Hf _].
  rewrite <- Hu. now apply in_map.
Qed.

Lemma deleteTask_cases (k : string) (st : State) :
  deleteTask k st = st \/
  exists task, find_first (has_id k) (tasks st) = Some task /\
    deleteTask k st =
    mkState (filter (fun t => negb (has_id k t)) (tasks st))
            (undoStack st
             ++ [DELETE_TASK task (findIndex (has_id k) (tasks st))]).
Proof.
  unfold deleteTask.
  destruct (find_first (has_id k) (tasks st)) as [task|] eqn:Hf.
  - right. exists task. now rewrite (find_first_index _ _ _ Hf).
  - left. now rewrite (find_first_none_index _ _ Hf).
Qed.

(** A loggable event keeps the ids unique, and either changes nothing or
    pushes one entry that [undo] reverts exactly. *)
Lemma loggable_step (st : State) (e : Event) :
  NoDup (map id (tasks st)) -> loggable st e ->
  NoDup (map id (tasks (step st e))) /\
  (step st e = st \/
   (length (undoStack (step st e)) = S (length (undoStack st)) /\
    undo (step st e) = st)).
Proof.
  intros Hnd Hok.
  assert (Hdel : forall k,
    NoDup (map id (tasks (deleteTask k st))) /\
    (deleteTask k st = st \/
     (length (undoStack (deleteTask k st)) = S (length (undoStack st)) /\
      undo (deleteTask k st) = st))).
  { intros k. destruct (deleteTask_cases k st) as [E|(task & Hf & E)].
    - rewrite E. auto.
    - split.
      + rewrite E. cbn [tasks]. now apply NoDup_filter_ids.
      + right. split.
        * rewrite E. cbn [undoStack]. rewrite length_app. simpl. lia.
        * now apply (undo_deleteTask st Hnd k task). }
  destruct e as [ti now|k|k|k ti|o|]; simpl in *; try contradiction.
  - destruct (trim ti) as [|c r] eqn:E.
    { unfold addTask. rewrite E. cbn [truthy]. auto. }
    assert (Hti : trim ti <> []) by (rewrite E; discriminate).
    split.
    + unfold addTask. rewrite E. cbn [truthy tasks].
      rewrite map_app. simpl. apply NoDup_app; [assumption| |].
      * constructor; [intros []|constructor].
      * intros x Hx [<-|[]]. contradiction.
    + right. split; [|now apply undo_addTask].
      unfold addTask. rewrite E. cbn [truthy undoStack].
      rewrite length_app. simpl. lia.
  - destruct (find_first (has_id k) (tasks st)) as [task|] eqn:Hf.
    2:{ unfold toggleComplete. rewrite Hf. auto. }
    split.
    + unfold toggleComplete. rewrite Hf. cbn [tasks].
      rewrite map_ids_same; [assumption|].
      intros t. now destruct (has_id k t).
    + right. split; [|now apply (undo_toggleComplete st Hnd k task)].
      unfold toggleComplete. rewrite Hf. cbn [undoStack].
      rewrite length_app. simpl. lia.
  - apply Hdel.
  - destruct (find_first (has_id k) (tasks st)) as [task|] eqn:Hf.
    2:{ unfold updateTaskTitle. rewrite Hf. auto. }
    destruct (trim ti) as [|c r] eqn:E.
    { unfold updateTaskTitle. rewrite Hf, E. cbn [truthy andb negb].
      apply Hdel. }
    assert (Hti : trim ti <> []) by (rewrite E; discriminate).
    destruct (list_eq_dec N.eq_dec ti (title task)) as [He|Hne].
    { unfold updateTaskTitle, JsString.eqb. rewrite Hf, E.
      destruct (list_eq_dec N.eq_dec ti (title task)); [|contradiction].
      cbn [truthy andb negb]. auto. }
    split.
    + unfold updateTaskTitle, JsString.eqb. rewrite Hf, E.
      destruct (list_eq_dec N.eq_dec ti (title task)); [contradiction|].
      cbn [truthy andb negb tasks].
      rewrite map_ids_same; [assumption|].
      intros t. now destruct (has_id k t).
    + right. split; [|now apply (undo_updateTaskTitle st Hnd k ti task)].
      unfold updateTaskTitle, JsString.eqb. rewrite Hf, E.
      destruct (list_eq_dec N.eq_dec ti (title task)); [contradiction|].
      cbn [truthy andb negb undoStack]. rewrite length_app. simpl. lia.
Qed.

Lemma local_log_grows (es : list Event) (st : State) :
  NoDup (map id (tasks st)) -> admissible st es ->
  (length (undoStack st) <= length (undoStack (run es st)))%nat.
Proof.
  revert st. induction es as [|e es IH]; intros st Hnd Ha; simpl; [lia|].
  destruct Ha as [Hok Ha].
  destruct (loggable_step st e Hnd Hok) as [Hnd1 Hstep].
  specialize (IH (step st e) Hnd1 Ha).
  change (fold_left step es (step st e)) with (run es (step st e)).
  destruct Hstep as [E|[E _]].
  - rewrite E in IH |- *. exact IH.
  - lia.
Qed.

(** X11. In the React-state revision, after any run of adds (each at a
    clock reading that is no id of the collection), toggles, renames and
    deletes, pressing undo once for every entry the run has pushed gives
    back the state the run started from, exactly. *)
Theorem undo_all_is_exact (st : State) (es : list Event) :
  NoDup (map id (tasks st)) -> admissible st es ->
  undo_times (length (undoStack (run es st)) - length (undoStack st))
             (run es st) = st.
Proof.
  revert st. induction es as [|e es IH]; intros st Hnd Ha.
  - simpl. now rewrite Nat.sub_diag.
  - destruct Ha as [Hok Ha].
    change (run (e :: es) st) with (run es (step st e)).
    destruct (loggable_step st e Hnd Hok) as [Hnd1 Hstep].
    pose proof (local_log_grows es (step st e) Hnd1 Ha) as Hgrow.
    specialize (IH (step st e) Hnd1 Ha).
    destruct Hstep as [E|[E Hundo]].
    + rewrite E in IH |- *. exact IH.
    + replace (length (undoStack (run es (step st e)))
               - length (undoStack st))%nat
        with (S (length (undoStack (run es (step st e)))
                 - length (undoStack (step st e)))) by lia.
      unfold undo_times in *. rewrite Nat.iter_succ. now rewrite IH.
Qed.

Lemma undo_all_is_exact_witness :
  undo_times 3 (run [EvToggle "1"; EvRename "2" (js "C"); EvDelete "1";
                     EvDelete "9"] two_local) = two_local.
Proof.
  apply (undo_all_is_exact two_local
           [EvToggle "1"; EvRename "2" (js "C"); EvDelete "1"; EvDelete "9"]).
  - apply two_local_NoDup.
  - simpl. tauto.
Defined.

(** *** Ids read from the clock *)

Lemma addTask_pushes (ti : jsstring) (now : Z) (st : State) :
  trim ti <> [] ->
  addTask ti now st =
  mkState (tasks st ++ [mkTask (toString now) ti false
                               (Z.of_nat (length (tasks st)))])
          (undoStack st
           ++ [ADD_TASK (mkTask (toString now) ti false
                                (Z.of_nat (length (tasks st))))]).
Proof.
  intros H. unfold addTask. destruct (trim ti); [contradiction|reflexivity].
Qed.

Lemma find_first_app_fresh (k : string) (ts : list Task) (t : Task)
    (rest : list Task) :
  ~ In k (map id ts) -> id t = k ->
  find_first (has_id k) (ts ++ t :: rest) = Some t.
Proof.
  intros Hk Hid. unfold find_first.
  induction ts as [|x ts IH]; simpl.
  - now rewrite (proj2 (has_id_eq k t) Hid).
  - destruct (has_id k x) eqn:Ex.
    + apply has_id_eq in Ex. exfalso. apply Hk. simpl. now left.
    + apply IH. intros Hin. apply Hk. simpl. now right.
Qed.

(** X12. In the React-state revision the id of a task is the clock reading
    at its creation: two adds that read the same millisecond append two
    tasks with one id, and deleting by that id removes both. *)
Theorem same_clock_tasks_share_fate (st : State) (ti1 ti2 : jsstring)
    (now : Z) :
  trim ti1 <> [] -> trim ti2 <> [] ->
  ~ In (toString now) (map id (tasks st)) ->
  map id (tasks (addTask ti2 now (addTask ti1 now st))) =
    map id (tasks st) ++ [toString now; toString now] /\
  map title (tasks (addTask ti2 now (addTask ti1 now st))) =
    map title (tasks st) ++ [ti1; ti2] /\
  tasks (deleteTask (toString now) (addTask ti2 now (addTask ti1 now st))) =
    tasks st.
Proof.
  intros H1 H2 Hk.
  rewrite (addTask_pushes ti1) by assumption.
  rewrite (addTask_pushes ti2) by assumption.
  cbn [tasks undoStack]. rewrite <- !app_assoc. cbn [app].
  split; [now rewrite map_app|]. split; [now rewrite map_app|].
  unfold deleteTask. cbn [tasks].
  erewrite find_first_index
    by (apply find_first_app_fresh; [exact Hk|reflexivity]).
  cbn [tasks]. rewrite filter_app. cbn [filter].
  assert (Hh : forall ti so,
            has_id (toString now) (mkTask (toString now) ti false so) = true)
    by (intros; unfold has_id; simpl; apply String.eqb_refl).
  rewrite !Hh. cbn [negb].
  rewrite app_nil_r. now apply filter_fresh.
Qed.

Lemma same_clock_tasks_share_fate_witness :
  tasks (deleteTask (toString 3)
           (addTask (js "D") 3 (addTask (js "C") 3 two_local)))
  = tasks two_local.
Proof.
  apply (same_clock_tasks_share_fate two_local (js "C") (js "D") 3).
  - vm_compute; discriminate.
  - vm_compute; discriminate.
  - vm_compute. intros [H|[H|[]]]; discriminate.
Defined.

(** *** reorder *)

Lemma filter_none {A : Type} (p : A -> bool) (l : list A) :
  (forall x, In x l -> p x = false) -> filter p l = [].
Proof.
  induction l as [|x l IH]; simpl; intros H; [reflexivity|].
  rewrite (H x (or_introl eq_refl)). apply IH. intros y Hy. apply H. now right.
Qed.

Lemma filter_all {A : Type} (p : A -> bool) (l : list A) :
  (forall x, In x l -> p x = true) -> filter p l = l.
Proof.
  induction l as [|x l IH]; simpl; intros H; [reflexivity|].
  rewrite (H x (or_introl eq_refl)). f_equal. apply IH.
  intros y Hy. apply H. now right.
Qed.

Lemma mapi_from_renumbered_In (o : list Task) (i : Z) (t : Task) :
  In t (mapi_from renumbered i o) ->
  exists u, In u o /\ isCompleted t = isCompleted u /\ id t = id u.
Proof.
  revert i. induction o as [|x o IH]; simpl; intros i; [tauto|].
  intros [<-|H].
  - exists x. auto.
  - destruct (IH _ H) as (u & Hu & E). exists u. auto.
Qed.

Lemma mapi_from_renumbered_keys (o : list Task) (i : Z) :
  map sortOrder (mapi_from renumbered i o) = indices_from i (length o) /\
  map id (mapi_from renumbered i o) = map id o.
Proof.
  revert i. induction o as [|x o IH]; intros i; simpl; [auto|].
  destruct (IH (i + 1)) as [-> ->]. auto.
Qed.

(** X13. In the React-state revision a reorder replaces the active part of
    the array by the submitted tasks, numbered 0..n-1 in the submitted
    order, and puts the completed tasks behind them in their former order;
    an active task that is not submitted is dropped.  The log is left as
    it is. *)
Theorem local_reorder_replaces_active (st : State) (newOrder : list Task) :
  (forall t, In t newOrder -> isCompleted t = false) ->
  tasks (handleReorder newOrder st) =
    mapi renumbered newOrder ++ completedTasks (tasks st) /\
  activeTasks (tasks (handleReorder newOrder st)) = mapi renumbered newOrder /\
  map sortOrder (activeTasks (tasks (handleReorder newOrder st))) =
    indices_from 0 (length newOrder) /\
  map id (activeTasks (tasks (handleReorder newOrder st))) = map id newOrder /\
  completedTasks (tasks (handleReorder newOrder st)) =
    completedTasks (tasks st) /\
  undoStack (handleReorder newOrder st) = undoStack st.
Proof.
  intros Hact.
  assert (Ha : activeTasks (tasks (handleReorder newOrder st))
               = mapi renumbered newOrder).
  { unfold handleReorder, activeTasks, completedTasks. cbn [tasks].
    rewrite filter_app.
    rewrite (filter_none _ (filter _ (tasks st))).
    - rewrite app_nil_r. apply filter_all. intros t Ht.
      apply mapi_from_renumbered_In in Ht as (u & Hu & -> & _).
      now rewrite (Hact u Hu).
    - intros t Ht. apply filter_In in Ht as [_ Ht]. now rewrite Ht. }
  split; [reflexivity|]. split; [exact Ha|]. rewrite Ha.
  unfold mapi. destruct (mapi_from_renumbered_keys newOrder 0) as [-> ->].
  split; [reflexivity|]. split; [reflexivity|]. split; [|reflexivity].
  unfold handleReorder, completedTasks. cbn [tasks].
  rewrite filter_app. rewrite filter_none.
  - simpl. apply filter_all. intros t Ht. now apply filter_In in Ht.
  - intros t Ht.
    apply mapi_from_renumbered_In in Ht as (u & Hu & -> & _). now apply Hact.
Qed.

Lemma local_reorder_replaces_active_witness :
  map id (tasks (handleReorder
                   [mkTask "2" (js "B") false 1]
                   (toggleComplete "1" (addTask (js "C") 3 two_local))))
  = ["2"; "1"].
Proof.
  destruct (local_reorder_replaces_active
              (toggleComplete "1" (addTask (js "C") 3 two_local))
              [mkTask "2" (js "B") false 1]) as (E & _).
  - intros t [<-|[]]. reflexivity.
  - rewrite E. reflexivity.
Defined.

(** *** The revision without undo log *)

Lemma map_no_match (k : string) (f : Task -> Task) (ts : list Task) :
  find_first (has_id k) ts = None ->
  map (fun t => if has_id k t then f t else t) ts = ts.
Proof.
  unfold find_first. induction ts as [|x ts IH]; simpl; [reflexivity|].
  destruct (has_id k x); [discriminate|]. intros H. now rewrite IH.
Qed.

Lemma filter_no_match (k : string) (ts : list Task) :
  find_first (has_id k) ts = None ->
  filter (fun t => negb (has_id k t)) ts = ts.
Proof.
  unfold find_first. induction ts as [|x ts IH]; simpl; [reflexivity|].
  destruct (has_id k x); [discriminate|]. intros H. simpl. now rewrite IH.
Qed.

Lemma deleteTask_tasks (k : string) (st : State) :
  tasks (deleteTask k st) = Plain.deleteTask k (tasks st).
Proof.
  unfold Plain.deleteTask.
  destruct (deleteTask_cases k st) as [E|(task & _ & ->)]; [|reflexivity].
  destruct (find_first (has_id k) (tasks st)) as [task|] eqn:Hf.
  - exfalso. unfold deleteTask in E.
    rewrite (find_first_index _ _ _ Hf) in E.
    apply (f_equal undoStack) in E. cbn [undoStack] in E.
    apply (f_equal (@length Action)) in E. rewrite length_app in E.
    simpl in E. lia.
  - rewrite E. symmetry. now apply filter_no_match.
Qed.

(** X14. The undo log changed nothing in what the handlers do to the
    array: [addTask], [toggleComplete], [deleteTask] and [handleReorder] of
    the React-state revision leave the very array that the handlers of the
    revision without undo log (part_000) compute, and so does
    [updateTaskTitle] when ids are unique. *)
Theorem handlers_agree_with_plain (st : State) :
  (forall ti now,
     tasks (addTask ti now st) = Plain.addTask ti now (tasks st)) /\
  (forall k,
     tasks (toggleComplete k st) = Plain.toggleComplete k (tasks st)) /\
  (forall k, tasks (deleteTask k st) = Plain.deleteTask k (tasks st)) /\
  (forall o, tasks (handleReorder o st) = Plain.handleReorder o (tasks st)) /\
  (NoDup (map id (tasks st)) ->
   forall k ti,
     tasks (updateTaskTitle k ti st) = Plain.updateTaskTitle k ti (tasks st)).
Proof.
  split; [|split; [|split; [|split]]].
  - intros ti now. unfold addTask, Plain.addTask.
    now destruct (truthy (trim ti)).
  - intros k. unfold toggleComplete, Plain.toggleComplete.
    destruct (find_first (has_id k) (tasks st)) eqn:Hf; [reflexivity|].
    symmetry. now apply map_no_match.
  - intros k. apply deleteTask_tasks.
  - reflexivity.
  - intros Hnd k ti. unfold updateTaskTitle, Plain.updateTaskTitle.
    destruct (find_first (has_id k) (tasks st)) as [task|] eqn:Hf.
    + destruct (truthy (trim ti)); cbn [andb negb].
      * unfold JsString.eqb.
        destruct (list_eq_dec N.eq_dec ti (title task)) as [->|Hne];
          [|reflexivity].
        cbn [negb]. rewrite <- (map_id (tasks st)) at 1.
        apply map_ext_in. intros t Ht.
        destruct (has_id k t) eqn:E; [|reflexivity].
        rewrite <- (find_unique k (tasks st) task t Hnd Hf Ht E).
        symmetry. apply task_eta.
      * apply deleteTask_tasks.
    + destruct (truthy (trim ti)).
      * symmetry. now apply map_no_match.
      * unfold Plain.deleteTask. symmetry. now apply filter_no_match.
Qed.

Lemma handlers_agree_with_plain_witness :
  tasks (updateTaskTitle "1" (js "A") two_local)
  = Plain.updateTaskTitle "1" (js "A") (tasks two_local).
Proof.
  apply (handlers_agree_with_plain two_local). apply two_local_NoDup.
Defined.

End LocalExtra.

(* ================================================================= *)
(** ** Properties of the delete gestures and of the keyboard *)

Module GestureFacts.

Import JsString JsArray JsArrayFacts TaskItem.

Local Open Scope string_scope.
Local Open Scope list_scope.
Local Open Scope Z_scope.

Lemma item_run_app (k : string) (es1 es2 : list Event) (it : Item) :
  run k (es1 ++ es2) it =
  (fst (run k es2 (fst (run k es1 it))),
   snd (run k es1 it) ++ snd (run k es2 (fst (run k es1 it)))).
Proof.
  revert it. induction es1 as [|e es1 IH]; intros it; simpl.
  - now destruct (run k es2 it).
  - destruct (step k it e) as [it1 cb1]. rewrite IH.
    destruct (run k es1 it1) as [it2 cb2]. simpl.
    now rewrite app_assoc.
Qed.

Lemma step_offset_bound (k : string) (it : Item) (e : Event) :
  0 <= swipeOffset it <= 300 -> 0 <= swipeOffset (fst (step k it e)) <= 300.
Proof.
  intros H. destruct e; simpl; auto.
  - unfold handleWheel. destruct (Z.abs deltaY <? Z.abs deltaX); [|assumption].
    destruct (Z.ltb_spec 0 (swipeAccumulator it - deltaX)); simpl; lia.
  - unfold swipeTimeoutFires. destruct (swipeTimeout it); [|assumption].
    destruct (150 <? swipeAccumulator it); simpl; lia.
Qed.

(** X15. Whatever happens to an item after it is mounted, the offset it is
    drawn at stays between 0 and 300. *)
Theorem swipeOffset_bounded (title : jsstring) (k : string) (es : list Event) :
  0 <= swipeOffset (fst (run k es (mount title))) <= 300.
Proof.
  assert (H : 0 <= swipeOffset (mount title) <= 300) by (simpl; lia).
  revert H. generalize (mount title) as it.
  induction es as [|e es IH]; intros it H; simpl; [assumption|].
  pose proof (step_offset_bound k it e H) as H1.
  destruct (step k it e) as [it1 cb1]. specialize (IH it1 H1).
  now destruct (run k es it1).
Qed.

Lemma wheels_run (k : string) (ws : list (Z * Z)) (it : Item) :
  snd (run k (wheels ws) it) = [] /\
  swipeAccumulator (fst (run k (wheels ws) it)) =
    swipeAccumulator it + travel ws /\
  swipeTimeout (fst (run k (wheels ws) it)) =
    (swipeTimeout it || existsb horizontal ws)%bool /\
  editValue (fst (run k (wheels ws) it)) = editValue it.
Proof.
  revert it. induction ws as [|[dx dy] ws IH]; intros it; simpl.
  - repeat split; [lia|now rewrite orb_false_r].
  - specialize (IH (handleWheel dx dy it)).
    destruct (run k (wheels ws) (handleWheel dx dy it)) as [it2 cb2].
    simpl in *. destruct IH as (-> & -> & -> & ->).
    unfold handleWheel, horizontal. simpl.
    destruct (Z.abs dy <? Z.abs dx); simpl.
    + destruct (0 <? swipeAccumulator it - dx); simpl;
        repeat split; try lia; now rewrite orb_true_r.
    + repeat split.
Qed.

(** X16. A burst of wheel events deletes nothing by itself; when the timer
    it armed fires, the delete is requested exactly if the rightward travel
    of the burst, the inverted sum of the deltas of its horizontal events,
    exceeds 150, and in both cases the accumulator is back at 0 and the
    timer is off; without a delete the item is back at rest. *)
Theorem swipe_deletes_beyond_threshold (k : string) (ws : list (Z * Z))
    (it : Item) :
  swipeAccumulator it = 0 -> existsb horizontal ws = true ->
  snd (run k (wheels ws) it) = [] /\
  snd (run k (wheels ws ++ [TimerFires]) it) =
    (if 150 <? travel ws then [onDelete k] else []) /\
  swipeAccumulator (fst (run k (wheels ws ++ [TimerFires]) it)) = 0 /\
  swipeTimeout (fst (run k (wheels ws ++ [TimerFires]) it)) = false /\
  (travel ws <= 150 ->
   fst (run k (wheels ws ++ [TimerFires]) it) =
   mkItem (editValue it) false 0 0 false).
Proof.
  intros Hacc Hh.
  destruct (wheels_run k ws it) as (Hcb & Ha & Ht & He).
  rewrite Hacc in Ha. rewrite Hh, orb_true_r in Ht. simpl in Ha.
  rewrite item_run_app, Hcb. split; [reflexivity|].
  cbn [run step fst snd app].
  destruct (swipeTimeoutFires k (fst (run k (wheels ws) it)))
    as [it' cb'] eqn:E.
  unfold swipeTimeoutFires in E. rewrite Ht, Ha in E.
  cbn [fst snd]. rewrite app_nil_r.
  destruct (Z.ltb_spec 150 (travel ws)) as [Hgt|Hle];
    injection E as <- <-; cbn [swipeAccumulator swipeTimeout];
    repeat split; try lia.
  intros _. now rewrite He.
Qed.

Lemma swipe_deletes_beyond_threshold_witness :
  snd (run "a" (wheels [(-100, 3); (2, 40); (-60, 0)] ++ [TimerFires])
           (mount (js "A")))
  = [onDelete "a"].
Proof.
  apply (swipe_deletes_beyond_threshold "a" [(-100, 3); (2, 40); (-60, 0)]
           (mount (js "A"))); reflexivity.
Defined.



(** X18. The cleanup of the wheel effect cancels the timer and keeps the
    accumulator: a timer that fires after it does nothing, and a later
    burst goes on from the distance travelled before the cleanup. *)
Theorem cleanup_keeps_travel (k : string) (ws1 ws2 : list (Z * Z))
    (it : Item) :
  run k [Cleanup; TimerFires] it = (effectCleanup it, []) /\
  swipeAccumulator
    (fst (run k (wheels ws1 ++ Cleanup :: wheels ws2) it)) =
  swipeAccumulator it + travel ws1 + travel ws2.
Proof.
  split; [reflexivity|].
  rewrite item_run_app. cbn [fst].
  change (Cleanup :: wheels ws2) with ([Cleanup] ++ wheels ws2).
  rewrite item_run_app. cbn [fst run step].
  destruct (wheels_run k ws1 it) as (_ & Ha1 & _).
  destruct (wheels_run k ws2 (effectCleanup (fst (run k (wheels ws1) it))))
    as (_ & Ha2 & _).
  rewrite Ha2. cbn [effectCleanup swipeAccumulator]. now rewrite Ha1.
Qed.

End GestureFacts.

(* ================================================================= *)
(** ** Properties of [Home] with its input state *)

Module HomeFacts.

Import JsString JsArray JsArrayFacts.
Import Synced SyncedFacts Home.

Local Open Scope string_scope.
Local Open Scope list_scope.
Local Open Scope Z_scope.

Lemma given_some (k : string) : k <> "" -> given (Some k) = true.
Proof.
  intros H. unfold given. apply negb_true_iff. now apply String.eqb_neq.
Qed.

(** X19. [handleKeyDown] touches the collection and the log in two cases
    only: Enter in the new-task field with a text that is not blank, and
    Backspace in the empty edit field of a task of the collection.  Any
    other key, Backspace in the new-task field, and Backspace in an edit
    field that still holds text leave them as they are. *)
Theorem handleKeyDown_mutates_only (key : string) (taskId : option string)
    (value : jsstring) (newId : string) (now : Z) (h : View) :
  core (handleKeyDown key taskId value newId now h) <> core h ->
  (key = "Enter" /\ given taskId = false /\ trim (newTaskTitle h) <> []) \/
  (key = "Backspace" /\ value = [] /\
   exists k, taskId = Some k /\ k <> "" /\ In k (map id (tasks (core h)))).
Proof.
  unfold handleKeyDown.
  destruct (String.eqb_spec key "Enter") as [->|Hn1].
  - destruct (given taskId) eqn:G; cbn [core]; [tauto|].
    unfold Home.addTask.
    destruct (trim (newTaskTitle h)) eqn:E; cbn [truthy]; [tauto|].
    intros _. left. repeat split. discriminate.
  - destruct (String.eqb_spec key "Backspace") as [->|Hn2];
      cbn [andb]; [|tauto].
    destruct taskId as [k|]; cbn [given]; [|tauto].
    destruct (String.eqb_spec k "") as [->|Hk]; cbn [negb]; [tauto|].
    destruct value as [|c v]; [|tauto]. cbn [core].
    intros Hch. right. repeat split. exists k. repeat split; auto.
    destruct (in_dec string_dec k (map id (tasks (core h)))) as [Hin|Hout];
      [assumption|].
    exfalso. apply Hch. now apply deleteTask_unknown.
Qed.

Lemma handleKeyDown_mutates_only_witness :
  ("Backspace" = "Enter" /\ given (Some "a") = false /\
   trim (newTaskTitle (mkView one_task (Some "a") [])) <> []) \/
  ("Backspace" = "Backspace" /\ @nil code_unit = [] /\
   exists k, Some "a" = Some k /\ k <> "" /\
             In k (map id (tasks (core (mkView one_task (Some "a") []))))).
Proof.
  apply (handleKeyDown_mutates_only "Backspace" (Some "a") [] "n" 5
           (mkView one_task (Some "a") [])).
  vm_compute. discriminate.
Defined.

(** X20. Enter in the new-task field: with a blank text the whole view is
    left as it is, the text included; with any other text and a new id the
    task is appended with the text as typed, one [ADD_TASK] entry is
    pushed, the field is emptied and the edit mode is not touched. *)
Theorem enter_in_new_task_field (newId : string) (now : Z) (value : jsstring)
    (h : View) :
  (trim (newTaskTitle h) = [] ->
   handleKeyDown "Enter" None value newId now h = h) /\
  (trim (newTaskTitle h) <> [] -> ~ In newId (map id (tasks (core h))) ->
   let t := mkTask newId (newTaskTitle h) false
                   (Z.of_nat (length (tasks (core h)))) (Some now) (Some now)
                   None in
   handleKeyDown "Enter" None value newId now h =
   mkView (mkState (tasks (core h) ++ [t])
                   (undoStack (core h) ++ [ADD_TASK t]))
          (editingId h) []).
Proof.
  unfold handleKeyDown, Home.addTask. cbn [String.eqb Ascii.eqb Bool.eqb given].
  split.
  - intros E. now rewrite E.
  - intros E Hk. rewrite (proj2 (truthy_true _) E).
    now rewrite addTask_fresh.
Qed.

Lemma enter_in_new_task_field_witness :
  handleKeyDown "Enter" None [] "b" 5 (mkView one_task None (js " B ")) =
  mkView (mkState
            (tasks one_task
             ++ [mkTask "b" (js " B ") false 1 (Some 5) (Some 5) None])
            (undoStack one_task
             ++ [ADD_TASK (mkTask "b" (js " B ") false 1 (Some 5) (Some 5)
                                  None)]))
         None [].
Proof.
  apply (enter_in_new_task_field "b" 5 [] (mkView one_task None (js " B "))).
  - vm_compute; discriminate.
  - vm_compute. intros [H|[]]. discriminate.
Defined.

Lemma callbacks_one (c : TaskItem.Callback) (newId : string) (now : Z)
    (h : View) :
  callbacks [c] newId now h = callback c newId now h.
Proof. reflexivity. Qed.

(** X21. In the edit field of a task of the collection, Enter on a blank
    text and Backspace on the empty text do the same: the task is deleted
    with one [DELETE_TASK] entry and the edit mode ends; leaving the field
    (blur) commits as Enter does.  For a task that is no longer in the
    collection Enter changes nothing, the edit mode included, while
    Backspace on the empty text still ends the edit mode. *)
Theorem blank_edit_field_deletes (k : string) (it : TaskItem.Item)
    (newId : string) (now : Z) (h : View) :
  k <> "" ->
  (In k (map id (tasks (core h))) -> trim (TaskItem.editValue it) = [] ->
   callbacks (TaskItem.inputKeyDown "Enter" k it) newId now h =
   mkView (Synced.deleteTask k (core h)) None (newTaskTitle h)) /\
  (TaskItem.editValue it = [] ->
   callbacks (TaskItem.inputKeyDown "Backspace" k it) newId now h =
   mkView (Synced.deleteTask k (core h)) None (newTaskTitle h)) /\
  callbacks (TaskItem.onBlur k it) newId now h =
  callbacks (TaskItem.inputKeyDown "Enter" k it) newId now h /\
  (~ In k (map id (tasks (core h))) ->
   callbacks (TaskItem.inputKeyDown "Enter" k it) newId now h = h /\
   (TaskItem.editValue it = [] ->
    callbacks (TaskItem.inputKeyDown "Backspace" k it) newId now h =
    mkView (core h) None (newTaskTitle h))).
Proof.
  intros Hk.
  assert (HE : TaskItem.inputKeyDown "Enter" k it
               = [TaskItem.onUpdate k (TaskItem.editValue it)])
    by reflexivity.
  assert (HB : TaskItem.inputKeyDown "Backspace" k it
               = [TaskItem.onKeyDown "Backspace" k (TaskItem.editValue it)])
    by reflexivity.
  rewrite HE, HB. unfold TaskItem.onBlur. rewrite !callbacks_one.
  cbn [callback]. unfold handleKeyDown.
  cbn [String.eqb Ascii.eqb Bool.eqb andb]. rewrite (given_some k Hk).
  split; [|split; [|split]].
  - intros Hin Hblank. unfold Home.updateTaskTitle.
    destruct (known_find _ _ Hin) as [task ->].
    now rewrite updateTaskTitle_blank.
  - intros ->. reflexivity.
  - reflexivity.
  - intros Hout. split.
    + unfold Home.updateTaskTitle. now rewrite find_unknown.
    + intros ->. now rewrite deleteTask_unknown.
Qed.

Lemma blank_edit_field_deletes_witness :
  callbacks (TaskItem.inputKeyDown "Enter" "a"
               (TaskItem.onChange (js "  ") (TaskItem.mount (js "A"))))
            "n" 5 (mkView one_task (Some "a") [])
  = mkView (Synced.deleteTask "a" one_task) None [].
Proof.
  assert (Hk : "a" <> "") by discriminate.
  destruct (blank_edit_field_deletes "a"
              (TaskItem.onChange (js "  ") (TaskItem.mount (js "A"))) "n" 5
              (mkView one_task (Some "a") []) Hk) as (HE & _).
  apply HE.
  - vm_compute. now left.
  - reflexivity.
Defined.

(** X22. Cmd+Z or Ctrl+Z right after a task was added from the new-task
    field takes the task and its log entry away again, so that collection
    and log are exactly as before the add, but the text that was typed is
    not put back: the field stays empty. *)
Theorem undo_key_after_add (metaKey ctrlKey : bool) (newId : string)
    (now now' : Z) (value : jsstring) (h : View) :
  (metaKey || ctrlKey)%bool = true ->
  trim (newTaskTitle h) <> [] -> ~ In newId (map id (tasks (core h))) ->
  windowKeyDown metaKey ctrlKey "z" now'
                (handleKeyDown "Enter" None value newId now h)
  = mkView (core h) (editingId h) [].
Proof.
  intros Hmod Hti Hk.
  unfold windowKeyDown, handleKeyDown, Home.addTask.
  cbn [String.eqb Ascii.eqb Bool.eqb given]. rewrite Hmod. cbn [andb].
  rewrite (proj2 (truthy_true _) Hti). cbn [core editingId newTaskTitle].
  now rewrite SyncedExtra.undo_after_add.
Qed.

Lemma undo_key_after_add_witness :
  windowKeyDown true false "z" 6
    (handleKeyDown "Enter" None [] "b" 5 (mkView one_task None (js "B")))
  = mkView one_task None [].
Proof.
  apply (undo_key_after_add true false "b" 5 6 []
           (mkView one_task None (js "B"))).
  - reflexivity.
  - vm_compute; discriminate.
  - vm_compute. intros [H|[]]. discriminate.
Defined.

End HomeFacts.
